(** * Orbital rich-text core: Quill Delta <-> markdown, and the emoji blot

    A shallow embedding of
    - [deltaToMarkdown] and [markdownToDelta] of OrbitalQuillEditor.tsx, and
    - [EmojiBlot.create] / [EmojiBlot.value] of quill/emoji/blot.dom.ts,
    together with the properties the specification states about them. *)

From Stdlib Require Import String Ascii DecimalString.
From Stdlib Require Import List NArith Arith Lia Bool.
Import ListNotations.

(* ===================================================================== *)
(** ** JavaScript strings *)
(* ===================================================================== *)

(** A JavaScript string is a sequence of UTF-16 code units.  None of the
    regular expressions of the source carries the [u] flag, so every string
    operation below works on code units. *)
Module JsString.

Definition char := N.
Definition str := list char.

(** Literals: an ASCII Rocq string, one code unit per character. *)
Definition js (s : string) : str := map N_of_ascii (list_ascii_of_string s).

Definition LF : char := 10%N.
Definition STAR : char := 42%N.

Definition char_eqb (a b : char) : bool := N.eqb a b.

Fixpoint str_eqb (a b : str) : bool :=
  match a, b with
  | [], [] => true
  | x :: a', y :: b' => char_eqb x y && str_eqb a' b'
  | _, _ => false
  end.

(** [s.length > 0] *)
Definition nonempty (s : str) : bool :=
  match s with [] => false | _ :: _ => true end.

(** [s.startsWith(p)] *)
Fixpoint startsWith (p s : str) : bool :=
  match p, s with
  | [], _ => true
  | _ :: _, [] => false
  | x :: p', y :: s' => char_eqb x y && startsWith p' s'
  end.

(** [s.substring(n)] *)
Definition substring (n : nat) (s : str) : str := skipn n s.

(** [s.split('\n')]: the pieces between line feeds; the empty string splits
    into one empty piece. *)
Fixpoint split_lines (s : str) : list str :=
  match s with
  | [] => [[]]
  | c :: s' =>
      if char_eqb c LF then [] :: split_lines s'
      else match split_lines s' with
           | l :: ls => (c :: l) :: ls
           | [] => [[c]]
           end
  end.

(** The LineTerminator code points of ECMAScript; [.] in a regular expression
    without the [s] flag matches every code unit but these. *)
Definition isLineTerminator (c : char) : bool :=
  N.eqb c 10 || N.eqb c 13 || N.eqb c 8232 || N.eqb c 8233.

(** WhiteSpace and LineTerminator of ECMAScript: the characters removed by
    [String.prototype.trim] and matched by [\s]. *)
Definition isWhiteSpace (c : char) : bool :=
  (N.leb 9 c && N.leb c 13) || N.eqb c 32 || N.eqb c 160 || N.eqb c 5760
  || (N.leb 8192 c && N.leb c 8202) || N.eqb c 8232 || N.eqb c 8233
  || N.eqb c 8239 || N.eqb c 8287 || N.eqb c 12288 || N.eqb c 65279.

(** [\d] *)
Definition isDigit (c : char) : bool := N.leb 48 c && N.leb c 57.

Fixpoint dropWhile (p : char -> bool) (s : str) : str :=
  match s with
  | [] => []
  | c :: s' => if p c then dropWhile p s' else s
  end.

Fixpoint takeWhile (p : char -> bool) (s : str) : str :=
  match s with
  | [] => []
  | c :: s' => if p c then c :: takeWhile p s' else []
  end.

Definition trimStart (s : str) : str := dropWhile isWhiteSpace s.
Definition trimEnd (s : str) : str := rev (dropWhile isWhiteSpace (rev s)).

(** [s.trim()] *)
Definition trim (s : str) : str := trimEnd (trimStart s).

(** [`${n}`] for a non-negative integer [n] (below 1e21, where JavaScript
    switches to exponent notation). *)
Definition numberToString (n : nat) : str :=
  js (NilEmpty.string_of_uint (Nat.to_uint n)).

End JsString.
Import JsString.

(* ===================================================================== *)
(** ** The Delta document model (quill-delta, insert operations) *)
(* ===================================================================== *)

(** The value of the [list] attribute of a line. *)
Inductive ListKind := Ordered | Bullet | OtherList.

(** [op.attributes], with [list_] for the key [list].  A key that is absent
    or falsy is [false] / [None];
    an absent or empty attributes object is [noAttributes]. *)
Record Attributes := mkAttributes {
  bold : bool;
  italic : bool;
  underline : bool;
  list_ : option ListKind;
  blockquote : bool
}.

Definition noAttributes : Attributes := mkAttributes false false false None false.
Definition boldAttr : Attributes := mkAttributes true false false None false.
Definition italicAttr : Attributes := mkAttributes false true false None false.
Definition underlineAttr : Attributes := mkAttributes false false true None false.
Definition listAttr (k : ListKind) : Attributes :=
  mkAttributes false false false (Some k) false.
Definition blockquoteAttr : Attributes := mkAttributes false false false None true.

Definition ListKind_eqb (a b : ListKind) : bool :=
  match a, b with
  | Ordered, Ordered | Bullet, Bullet | OtherList, OtherList => true
  | _, _ => false
  end.

Definition Attributes_eqb (a b : Attributes) : bool :=
  Bool.eqb (bold a) (bold b) && Bool.eqb (italic a) (italic b)
  && Bool.eqb (underline a) (underline b)
  && match list_ a, list_ b with
     | None, None => true
     | Some x, Some y => ListKind_eqb x y
     | _, _ => false
     end
  && Bool.eqb (blockquote a) (blockquote b).

(** [Object.keys(attrs).length > 0] for an attributes object built with
    truthy values only. *)
Definition hasAttributes (a : Attributes) : bool :=
  negb (Attributes_eqb a noAttributes).

(** The value of an emoji embed, [{ emoji: { value, source } }]. *)
Record EmojiBlotValue := mkEmojiBlotValue {
  emojiValue : str;
  emojiSource : option str
}.

(** [op.insert] is a string or an embed object. *)
Inductive Insert :=
| InsertString (s : str)
| InsertEmbed (e : EmojiBlotValue).

Record Op := mkOp {
  insert : Insert;
  attributes : Attributes
}.

(** [delta.ops] *)
Definition Delta := list Op.

Definition textOp (s : str) : Op := mkOp (InsertString s) noAttributes.
Definition fmtOp (s : str) (a : Attributes) : Op := mkOp (InsertString s) a.
Definition embedOp (v : str) : Op :=
  mkOp (InsertEmbed (mkEmojiBlotValue v None)) noAttributes.
Definition newlineOp (a : Attributes) : Op := mkOp (InsertString [LF]) a.

(** [Delta.prototype.push] of quill-delta, for insert operations: an inserted
    string is appended to the last operation when that one is an inserted
    string too and the attributes are equal ([isEqual]); otherwise the new
    operation is added at the end. *)
Definition mergeOps (lastOp newOp : Op) : option Op :=
  match insert lastOp, insert newOp with
  | InsertString a, InsertString b =>
      if Attributes_eqb (attributes newOp) (attributes lastOp)
      then Some (mkOp (InsertString (a ++ b)) (attributes newOp))
      else None
  | _, _ => None
  end.

Fixpoint Delta_push (ops : Delta) (newOp : Op) : Delta :=
  match ops with
  | [] => [newOp]
  | lastOp :: [] =>
      match mergeOps lastOp newOp with
      | Some merged => [merged]
      | None => [lastOp; newOp]
      end
  | o :: (_ :: _) as rest => o :: Delta_push rest newOp
  end.

(** [delta.insert(text, attributes)] of quill-delta: inserting the empty
    string does nothing. *)
Definition Delta_insert (delta : Delta) (text : str) (a : Attributes) : Delta :=
  match text with
  | [] => delta
  | _ :: _ => Delta_push delta (mkOp (InsertString text) a)
  end.

(* ===================================================================== *)
(** ** deltaToMarkdown *)
(* ===================================================================== *)

(** The three mutable locals of the loop of [deltaToMarkdown]. *)
Record EmitState := mkEmitState {
  markdown : str;
  listIndex : nat;
  isStartOfLine : bool
}.

Definition emitInit : EmitState := mkEmitState [] 1 true.

Definition isNewline (text : str) : bool := str_eqb text [LF].

(** [nextOp && typeof nextOp.insert === 'string' && nextOp.insert === '\n'
     && nextOp.attributes
     && (nextOp.attributes.list || nextOp.attributes.blockquote)] *)
Definition nextIsFormattedNewline (nextOp : option Op) : bool :=
  match nextOp with
  | Some n =>
      match insert n with
      | InsertString s =>
          isNewline s
          && (match list_ (attributes n) with Some _ => true | None => false end
              || blockquote (attributes n))
      | InsertEmbed _ => false
      end
  | None => false
  end.

(** The line prefix chosen from the attributes of the next newline. *)
Definition linePrefix (st : EmitState) (a : Attributes) : EmitState :=
  match list_ a with
  | Some Ordered =>
      mkEmitState (markdown st ++ numberToString (listIndex st) ++ js ". ")
                  (S (listIndex st)) false
  | Some Bullet => mkEmitState (markdown st ++ js "- ") (listIndex st) false
  | _ =>
      if blockquote a
      then mkEmitState (markdown st ++ js "> ") (listIndex st) false
      else mkEmitState (markdown st) (listIndex st) false
  end.

(** Inline formatting: bold is applied first, then italic around it, then
    underline around both. *)
Definition inlineFormat (a : Attributes) (text : str) : str :=
  let text := if bold a then js "**" ++ text ++ js "**" else text in
  let text := if italic a then js "*" ++ text ++ js "*" else text in
  let text := if underline a then js "<u>" ++ text ++ js "</u>" else text in
  text.

(** One iteration of the loop, for [op = ops[i]] and [nextOp = ops[i + 1]]. *)
Definition emitStep (st : EmitState) (op : Op) (nextOp : option Op) : EmitState :=
  match insert op with
  | InsertEmbed _ => st                       (* continue *)
  | InsertString text0 =>
      let formatted := nextIsFormattedNewline nextOp in
      let st1 :=
        if isStartOfLine st && formatted && negb (isNewline text0)
        then linePrefix st (match nextOp with
                            | Some n => attributes n
                            | None => noAttributes
                            end)
        else st in
      let text :=
        if negb (isNewline text0) then inlineFormat (attributes op) text0
        else text0 in
      let st2 := mkEmitState (markdown st1 ++ text) (listIndex st1)
                             (isStartOfLine st1) in
      if isNewline text
      then mkEmitState (markdown st2)
                       (if formatted then listIndex st2 else 1) true
      else st2
  end.

Fixpoint emitLoop (ops : Delta) (st : EmitState) : EmitState :=
  match ops with
  | [] => st
  | op :: rest => emitLoop rest (emitStep st op (hd_error rest))
  end.

Definition deltaToMarkdown (delta : Delta) : str :=
  trim (markdown (emitLoop delta emitInit)).

(* ===================================================================== *)
(** ** markdownToDelta *)
(* ===================================================================== *)

(** [line.match(...)] of the ordered-list branch, whose anchored pattern reads
    "digits, a dot, white space, anything up to the end"; the result is the
    second group.  A match is the longest run of digits (at least one), a
    dot, the longest run of white space (at least one), and a rest without
    line terminators.  Giving back digits or white space never helps the rest
    to match, so the greedy choice decides. *)
Definition orderedMatch (line : str) : option str :=
  let digits := takeWhile isDigit line in
  let afterDigits := dropWhile isDigit line in
  match digits, afterDigits with
  | _ :: _, dot :: afterDot =>
      if char_eqb dot 46%N then
        match takeWhile isWhiteSpace afterDot with
        | _ :: _ =>
            let rest := dropWhile isWhiteSpace afterDot in
            if forallb (fun c => negb (isLineTerminator c)) rest
            then Some rest else None
        | [] => None
        end
      else None
  | _, _ => None
  end.

(** [(.+?)\*\*] tried right after an opening [**]: the shortest non-empty run
    of characters other than line terminators that is followed by [**].
    Returns the run (group 1) and what follows the closing [**]. *)
Fixpoint lazyClose (l : str) : option (str * str) :=
  match l with
  | [] => None
  | c :: l' =>
      if isLineTerminator c then None
      else if startsWith (js "**") l' then Some ([c], substring 2 l')
      else match lazyClose l' with
           | Some (inner, rest) => Some (c :: inner, rest)
           | None => None
           end
  end.

(** [/\*\*(.+?)\*\*/] tried at the first position of [l]. *)
Definition boldMatchAt (l : str) : option (str * str) :=
  if startsWith (js "**") l then lazyClose (substring 2 l) else None.

(** [boldRegex.exec(line)] with [l] the part of the line from
    [boldRegex.lastIndex] on: the leftmost match.  Returns the text before
    the match, group 1, and the text after the match. *)
Fixpoint boldExec (l : str) : option (str * str * str) :=
  match l with
  | [] => None
  | c :: l' =>
      match boldMatchAt l with
      | Some (inner, rest) => Some ([], inner, rest)
      | None =>
          match boldExec l' with
          | Some (before, inner, rest) => Some (c :: before, inner, rest)
          | None => None
          end
      end
  end.

(** An element of [segments]; the source never sets [italic] or [underline]
    on one. *)
Record Segment := mkSegment {
  segText : str;
  segBold : bool;
  segItalic : bool;
  segUnderline : bool
}.

Definition plainSegment (t : str) : Segment := mkSegment t false false false.
Definition boldSegment (t : str) : Segment := mkSegment t true false false.

(** The [while] loop over the matches of [boldRegex] and the push of the
    tail after it; [l] is the line from [lastIndex] on.  Every match consumes
    at least five characters, so [fuel] above the length of [l] is never
    used up (see [lineSegments_unfold]). *)
Fixpoint segmentsLoop (fuel : nat) (l : str) : list Segment :=
  match fuel with
  | 0 => []
  | S fuel' =>
      match boldExec l with
      | Some (before, inner, rest) =>
          (if nonempty before then [plainSegment before] else [])
            ++ boldSegment inner :: segmentsLoop fuel' rest
      | None => if nonempty l then [plainSegment l] else []
      end
  end.

Definition lineSegments (line : str) : list Segment :=
  segmentsLoop (S (length line)) line.

(** [attrs] built from a segment. *)
Definition segmentAttrs (s : Segment) : Attributes :=
  mkAttributes (segBold s) (segItalic s) (segUnderline s) None false.

(** The body of [for (const line of lines)]. *)
Definition parseLine (delta : Delta) (line : str) : Delta :=
  if startsWith (js "> ") line then
    Delta_insert (Delta_insert delta (substring 2 line) noAttributes)
                 [LF] blockquoteAttr
  else match orderedMatch line with
  | Some rest =>
      Delta_insert (Delta_insert delta rest noAttributes) [LF] (listAttr Ordered)
  | None =>
    if startsWith (js "- ") line then
      Delta_insert (Delta_insert delta (substring 2 line) noAttributes)
                   [LF] (listAttr Bullet)
    else
      Delta_insert
        (fold_left (fun d s => Delta_insert d (segText s) (segmentAttrs s))
                   (lineSegments line) delta)
        [LF] noAttributes
  end.

Definition markdownToDelta (markdown : str) : Delta :=
  fold_left parseLine (split_lines markdown) [].

(* ===================================================================== *)
(** ** EmojiBlot *)
(* ===================================================================== *)

(** A call either returns or throws. *)
Inductive Completion (A : Type) : Type :=
| Normal (a : A)
| Throw (message : string).
Arguments Normal {A} a.
Arguments Throw {A} message.

Definition bind {A B} (c : Completion A) (k : A -> Completion B) : Completion B :=
  match c with
  | Normal a => k a
  | Throw m => Throw m
  end.

Notation "x <- c ;; k" := (bind c (fun x => k))
  (at level 61, c at next level, right associativity).

(** [strictAssert(condition, message)] *)
Definition strictAssert (condition : bool) (message : string) : Completion unit :=
  if condition then Normal tt else Throw message.

(** An element, as far as the blot is concerned: its attributes.
    [node.dataset.emojiKey] reads the attribute [data-emoji-key], and so on. *)
Definition Node := list (string * str).

Fixpoint getAttribute (node : Node) (name : string) : option str :=
  match node with
  | [] => None
  | (n, v) :: rest => if String.eqb n name then Some v else getAttribute rest name
  end.

Fixpoint setAttribute (node : Node) (name : string) (v : str) : Node :=
  match node with
  | [] => [(name, v)]
  | (n, old) :: rest =>
      if String.eqb n name then (n, v) :: rest
      else (n, old) :: setAttribute rest name v
  end.

(** Truthiness of [string | undefined]: defined and not empty. *)
Definition truthy (v : option str) : bool :=
  match v with
  | Some (_ :: _) => true
  | _ => false
  end.

Record EmojiVariantData := mkEmojiVariantData {
  variantKey : str;
  variantValue : str;
  sheetX : nat;
  sheetY : nat
}.

Record FunStaticEmojiProps := mkFunStaticEmojiProps {
  propRole : string;
  propAriaLabel : str;
  propEmoji : EmojiVariantData;
  propSize : nat
}.

(** What blot.dom.ts imports from components/fun/data/emojis.std.js and
    components/fun/FunEmoji.dom.js, and the element its superclass creates.
    The two lookups throw on an unknown argument. *)
Class EmojiImports := {
  getEmojiVariantByKey : str -> Completion EmojiVariantData;
  getEmojiVariantKeyByValue : str -> Completion str;
  isEmojiVariantValue : str -> bool;
  createStaticEmojiBlot : Node -> FunStaticEmojiProps -> Node;
  superCreate : Node
}.

Module EmojiBlot.
Section WithImports.
Context {imports : EmojiImports}.

(** [static create({ value: emoji, source })] *)
Definition create (v : EmojiBlotValue) : Completion Node :=
  let emoji := emojiValue v in
  let node := superCreate in
  _ <- strictAssert (isEmojiVariantValue emoji) "Value is not a known emoji" ;;
  variantKey <- getEmojiVariantKeyByValue emoji ;;
  variant <- getEmojiVariantByKey variantKey ;;
  let node := createStaticEmojiBlot node
                (mkFunStaticEmojiProps "img" emoji variant 20) in
  let node := setAttribute node "data-emoji-key" variantKey in
  let node := setAttribute node "data-source"
                (match emojiSource v with Some s => s | None => [] end) in
  Normal node.

(** [static value(node)] *)
Definition value (node : Node) : Completion EmojiBlotValue :=
  let emojiKey := getAttribute node "data-emoji-key" in
  let emoji := getAttribute node "data-emoji" in
  let source := getAttribute node "data-source" in
  if truthy emojiKey then
    variant <- getEmojiVariantByKey (match emojiKey with Some k => k | None => [] end) ;;
    Normal (mkEmojiBlotValue (variantValue variant) source)
  else if truthy emoji then
    Normal (mkEmojiBlotValue (match emoji with Some e => e | None => [] end) source)
  else
    Throw "Failed to make EmojiBlot - missing both data-emoji-key and data-emoji".

End WithImports.
End EmojiBlot.

(** A two-entry emoji dataset, to run the blot on: the grinning face and a
    three-code-point joiner sequence. *)
Module SampleData.

Definition grinning : EmojiVariantData :=
  mkEmojiVariantData (js "1F600") [55357; 56832]%N 30 32.
Definition dizzy : EmojiVariantData :=
  mkEmojiVariantData (js "1F635-200D-1F4AB") [55357; 56885; 8205; 55357; 56491]%N 32 40.

Definition dataset : list EmojiVariantData := [grinning; dizzy].

Definition byKey (k : str) : Completion EmojiVariantData :=
  match find (fun d => str_eqb (variantKey d) k) dataset with
  | Some d => Normal d
  | None => Throw "Missing emoji variant data for key"
  end.

Definition keyByValue (v : str) : Completion str :=
  match find (fun d => str_eqb (variantValue d) v) dataset with
  | Some d => Normal (variantKey d)
  | None => Throw "Missing emoji variant key for value"
  end.

Definition isValue (v : str) : bool :=
  existsb (fun d => str_eqb (variantValue d) v) dataset.

#[export] Instance sampleImports : EmojiImports := {|
  getEmojiVariantByKey := byKey;
  getEmojiVariantKeyByValue := keyByValue;
  isEmojiVariantValue := isValue;
  createStaticEmojiBlot := fun node props =>
    setAttribute (setAttribute node "role" (js (propRole props)))
                 "aria-label" (propAriaLabel props);
  superCreate := [("class"%string, js "FunStaticEmoji")]
|}.

End SampleData.

(* ===================================================================== *)
(** ** Observations on documents *)
(* ===================================================================== *)

(** The text of a document: its inserted strings, joined. *)
Definition opText (op : Op) : str :=
  match insert op with
  | InsertString s => s
  | InsertEmbed _ => []
  end.

Definition textContent (delta : Delta) : str := flat_map opText delta.

Definition isEmbedOp (op : Op) : bool :=
  match insert op with
  | InsertEmbed _ => true
  | InsertString _ => false
  end.

(** A document position holds one code unit or one embed. *)
Inductive Atom :=
| AChar (c : char)
| AEmbed (e : EmojiBlotValue).

(** The document position by position, each with the attributes it carries.
    Two deltas with the same positions are the same document: quill-delta
    keeps a delta compact by joining neighbours with equal attributes. *)
Definition opPositions (op : Op) : list (Atom * Attributes) :=
  match insert op with
  | InsertString s => map (fun c => (AChar c, attributes op)) s
  | InsertEmbed e => [(AEmbed e, attributes op)]
  end.

Definition positions (delta : Delta) : list (Atom * Attributes) :=
  flat_map opPositions delta.

(** An operation without attributes. *)
Definition unattributed (op : Op) : bool :=
  Attributes_eqb (attributes op) noAttributes.

(** The grinning face, U+1F600, as its two surrogates. *)
Definition grin : str := [55357; 56832]%N.

(** No block attribute on the operation. *)
Definition inlineOnly (op : Op) : bool :=
  match list_ (attributes op) with
  | Some _ => false
  | None => negb (blockquote (attributes op))
  end.

(** What one operation adds to the markdown when no line prefix is due. *)
Definition opMarkdown (op : Op) : str :=
  match insert op with
  | InsertEmbed _ => []
  | InsertString text =>
      if isNewline text then text else inlineFormat (attributes op) text
  end.

(** A line that none of the block branches of [markdownToDelta] takes and in
    which [boldRegex] finds nothing. *)
Definition blockFree (line : str) : bool :=
  negb (startsWith (js "> ") line)
  && match orderedMatch line with Some _ => false | None => true end
  && negb (startsWith (js "- ") line).

Definition plainLine (line : str) : bool :=
  blockFree line
  && match boldExec line with Some _ => false | None => true end.

(** A run of text that the bold markers can carry: not empty, no asterisk, no
    line terminator. *)
Definition safeChar (c : char) : bool :=
  negb (char_eqb c STAR) && negb (isLineTerminator c).

Definition safeText (t : str) : bool := nonempty t && forallb safeChar t.

(** Documents made of lines of plain and bold runs, each line closed by an
    unattributed newline operation. *)
Definition Run := (str * bool)%type.
Definition Line := list Run.

Definition runOp (r : Run) : Op :=
  fmtOp (fst r) (if snd r then boldAttr else noAttributes).

Definition lineOps (l : Line) : Delta := map runOp l ++ [newlineOp noAttributes].

Definition docOfLines (ls : list Line) : Delta := flat_map lineOps ls.

Definition runMarkdown (r : Run) : str :=
  if snd r then js "**" ++ fst r ++ js "**" else fst r.

Definition lineMarkdown (l : Line) : str := flat_map runMarkdown l.

(** [lines.join('\n')] *)
Fixpoint joinLines (ls : list str) : str :=
  match ls with
  | [] => []
  | [l] => l
  | l :: (_ :: _) as rest => l ++ LF :: joinLines rest
  end.

Definition safeLine (l : Line) : bool :=
  forallb (fun r => safeText (fst r)) l && blockFree (lineMarkdown l).

(** The positions a segment contributes once inserted. *)
Definition segmentPositions (sg : Segment) : list (Atom * Attributes) :=
  map (fun c => (AChar c, segmentAttrs sg)) (segText sg).

(** The positions of unattributed text. *)
Definition plainPositions (t : str) : list (Atom * Attributes) :=
  map (fun c => (AChar c, noAttributes)) t.

(** A string without white space at either end. *)
Definition trimmed (s : str) : bool :=
  match s with
  | [] => true
  | c :: _ => negb (isWhiteSpace c) && negb (isWhiteSpace (last s c))
  end.

(** The number of line feeds in a string. *)
Definition countLF (s : str) : nat := length (filter (fun c => char_eqb c LF) s).

(** The text that [markdownToDelta] inserts for a line, before the newline. *)
Definition lineBody (line : str) : str :=
  if startsWith (js "> ") line then substring 2 line
  else match orderedMatch line with
       | Some rest => rest
       | None =>
           if startsWith (js "- ") line then substring 2 line
           else flat_map segText (lineSegments line)
       end.

(** What every operation made by [markdownToDelta] is: a non-empty inserted
    string without Italic and without Underline. *)
Definition ParsedOp (op : Op) : Prop :=
  isEmbedOp op = false /\ opText op <> []
  /\ italic (attributes op) = false /\ underline (attributes op) = false.

(** The delta holding one unattributed string, or nothing for the empty
    string. *)
Definition asDelta (acc : str) : Delta :=
  match acc with
  | [] => []
  | _ :: _ => [textOp acc]
  end.

(** No two asterisks in a row. *)
Fixpoint noStarPair (l : str) : bool :=
  match l with
  | [] => true
  | _ :: l' => negb (startsWith (js "**") l) && noStarPair l'
  end.

(* ===================================================================== *)
(** ** The specification's reading, where it differs from the source *)
(* ===================================================================== *)

(** Section 4.2 step 3 in the specification's words: Bold outermost, then
    Italic, then Underline innermost. *)
Definition specInlineFormat (a : Attributes) (text : str) : str :=
  let text := if underline a then js "<u>" ++ text ++ js "</u>" else text in
  let text := if italic a then js "*" ++ text ++ js "*" else text in
  let text := if bold a then js "**" ++ text ++ js "**" else text in
  text.

(** The invariants of section 3 of the specification: a text operation is
    not empty, and it is either exactly one newline or free of newlines. *)
Definition specWellFormedOp (op : Op) : bool :=
  match insert op with
  | InsertEmbed _ => true
  | InsertString s =>
      nonempty s && (isNewline s || forallb (fun c => negb (char_eqb c LF)) s)
  end.

Definition specWellFormed (delta : Delta) : bool := forallb specWellFormedOp delta.

(** Section 7 of the specification: emission returns markdown or fails with
    MalformedDocument. *)
Inductive EmitOutcome :=
| Emitted (markdown : str)
| MalformedDocument.

Definition specEmit (delta : Delta) : EmitOutcome :=
  if specWellFormed delta then Emitted (deltaToMarkdown delta)
  else MalformedDocument.

(** The source: [deltaToMarkdown] has no [throw] and calls nothing that
    throws; every call returns its string. *)
Definition emitOutcome (delta : Delta) : EmitOutcome :=
  Emitted (deltaToMarkdown delta).

(** A newline operation in the sense of section 3: the text is exactly one
    newline. *)
Definition isNewlineOp (op : Op) : bool :=
  match insert op with
  | InsertString s => isNewline s
  | InsertEmbed _ => false
  end.

Definition allAttrs : Attributes := mkAttributes true true true None false.

(* ===================================================================== *)
(** ** OrbitalQuillEditor: the length limit *)
(* ===================================================================== *)

(** The [source] argument of a [text-change] event. *)
Inductive Source := SourceUser | SourceApi | SourceSilent.

(** [quill.getText()]: the inserted strings of the contents, joined; embeds
    are left out. *)
Definition quillGetText (contents : Delta) : str := textContent contents.

(** [handleTextChange] of the length-limit effect.  [contents] is what the
    editor holds when the event fires, [oldDelta] what it held before the
    change; the result is what it holds after the handler
    ([quill.setContents(oldDelta)] on overflow). *)
Definition handleTextChange (maxLength : nat) (contents oldDelta : Delta)
    (source : Source) : Delta :=
  match source with
  | SourceUser =>
      let text := trim (quillGetText contents) in
      if maxLength <? length text then oldDelta else contents
  | _ => contents
  end.

(** One change of the editor: the contents it produces and its source.  The
    effect installs the handler only for a truthy [maxLength]. *)
Definition applyChange (maxLength : option nat) (contents : Delta)
    (change : Delta * Source) : Delta :=
  match maxLength with
  | Some (S n) => handleTextChange (S n) (fst change) contents (snd change)
  | _ => fst change
  end.

Definition applyChanges (maxLength : option nat) (contents : Delta)
    (changes : list (Delta * Source)) : Delta :=
  fold_left (applyChange maxLength) changes contents.

(** The text the limit is measured on. *)
Definition limitedLength (contents : Delta) : nat :=
  length (trim (quillGetText contents)).

(* ===================================================================== *)
(** ** OrbitalComposer *)
(* ===================================================================== *)

(** [truncateText(text, maxLength)], for a non-negative integer
    [maxLength]. *)
Definition truncateText (text : str) (maxLength : nat) : str :=
  if length text <=? maxLength then text
  else firstn maxLength text ++ js "...".

Module OrbitalComposer.

Inductive OrbitalComposerMode := ThreadMode | ReplyMode.

Definition TITLE_MAX_LENGTH : nat := 200.
Definition BODY_MAX_LENGTH : nat := 5000.

Section Composer.
(** The selections handed over by the picker and the upload progress are
    only stored. *)
Context {FunGifSelection FunStickerSelection Progress : Type}.

(** The [useState] cells of the component. *)
Record State := mkState {
  title : str;
  body : str;
  pickerOpen : bool;
  selectedGif : option FunGifSelection;
  selectedSticker : option FunStickerSelection;
  uploadProgress : option Progress;
  uploadFileName : str;
  uploadFileSize : str
}.

Definition initialState : State := mkState [] [] false None None None [] [].

(** The props that the handlers read. *)
Record Props := mkProps {
  mode : OrbitalComposerMode;
  hasOnSelectGif : bool;
  hasOnSelectSticker : bool
}.

(** Calls of the callbacks passed by the parent. *)
Inductive Call :=
| OnSubmitThread (title body : str)
| OnSubmitReply (body : str)
| OnSelectGif (gif : FunGifSelection)
| OnSelectSticker (sticker : FunStickerSelection).

Definition handleTitleChange (newValue : str) (st : State) : State :=
  if length newValue <=? TITLE_MAX_LENGTH
  then mkState newValue (body st) (pickerOpen st) (selectedGif st)
               (selectedSticker st) (uploadProgress st) (uploadFileName st)
               (uploadFileSize st)
  else st.

(** [onChange={(markdown) => setBody(markdown)}] of the editor. *)
Definition handleBodyChange (markdown : str) (st : State) : State :=
  mkState (title st) markdown (pickerOpen st) (selectedGif st)
          (selectedSticker st) (uploadProgress st) (uploadFileName st)
          (uploadFileSize st).

Definition handleSubmit (p : Props) (st : State) : State * list Call :=
  match mode p with
  | ThreadMode =>
      if negb (nonempty (trim (title st))) then (st, [])
      else (mkState [] [] (pickerOpen st) None None (uploadProgress st)
                    (uploadFileName st) (uploadFileSize st),
            [OnSubmitThread (title st) (body st)])
  | ReplyMode =>
      if negb (nonempty (trim (body st))) then (st, [])
      else (mkState (title st) [] (pickerOpen st) None None (uploadProgress st)
                    (uploadFileName st) (uploadFileSize st),
            [OnSubmitReply (body st)])
  end.

Definition handleSelectGif (p : Props) (gif : FunGifSelection) (st : State)
    : State * list Call :=
  (mkState (title st) (body st) false (Some gif) (selectedSticker st)
           (uploadProgress st) (uploadFileName st) (uploadFileSize st),
   if hasOnSelectGif p then [OnSelectGif gif] else []).

Definition handleSelectSticker (p : Props) (sticker : FunStickerSelection)
    (st : State) : State * list Call :=
  (mkState (title st) (body st) false (selectedGif st) (Some sticker)
           (uploadProgress st) (uploadFileName st) (uploadFileSize st),
   if hasOnSelectSticker p then [OnSelectSticker sticker] else []).

Definition handleRemoveGif (st : State) : State :=
  mkState (title st) (body st) (pickerOpen st) None (selectedSticker st)
          (uploadProgress st) (uploadFileName st) (uploadFileSize st).

Definition handleRemoveSticker (st : State) : State :=
  mkState (title st) (body st) (pickerOpen st) (selectedGif st) None
          (uploadProgress st) (uploadFileName st) (uploadFileSize st).

Definition handleCancelUpload (st : State) : State :=
  mkState (title st) (body st) (pickerOpen st) (selectedGif st)
          (selectedSticker st) None [] [].

(** [onOpenChange={setPickerOpen}] *)
Definition setPickerOpen (open : bool) (st : State) : State :=
  mkState (title st) (body st) open (selectedGif st) (selectedSticker st)
          (uploadProgress st) (uploadFileName st) (uploadFileSize st).

(** What [handleFileSelect] and its timers do to the state: they write the
    three upload cells and nothing else. *)
Definition setUpload (progress : option Progress) (name size : str) (st : State)
    : State :=
  mkState (title st) (body st) (pickerOpen st) (selectedGif st)
          (selectedSticker st) progress name size.

Definition hasContent (st : State) : bool :=
  nonempty (trim (body st))
  || match selectedGif st with Some _ => true | None => false end
  || match selectedSticker st with Some _ => true | None => false end
  || nonempty (uploadFileName st).

Definition isSubmitDisabled (m : OrbitalComposerMode) (st : State) : bool :=
  match m with
  | ThreadMode => negb (nonempty (trim (title st))) || negb (hasContent st)
  | ReplyMode => negb (hasContent st)
  end.

(** What can happen to a mounted composer. *)
Inductive Event :=
| TitleInput (newValue : str)
| EditorChange (markdown : str)
| ClickSubmit
| SelectGif (gif : FunGifSelection)
| SelectSticker (sticker : FunStickerSelection)
| RemoveGif
| RemoveSticker
| CancelUpload
| PickerOpenChange (open : bool)
| UploadUpdate (progress : option Progress) (name size : str).

Definition step (p : Props) (st : State) (ev : Event) : State * list Call :=
  match ev with
  | TitleInput v => (handleTitleChange v st, [])
  | EditorChange md => (handleBodyChange md st, [])
  | ClickSubmit => handleSubmit p st
  | SelectGif g => handleSelectGif p g st
  | SelectSticker s => handleSelectSticker p s st
  | RemoveGif => (handleRemoveGif st, [])
  | RemoveSticker => (handleRemoveSticker st, [])
  | CancelUpload => (handleCancelUpload st, [])
  | PickerOpenChange o => (setPickerOpen o st, [])
  | UploadUpdate pr n s => (setUpload pr n s st, [])
  end.

(** The state after a sequence of events, and the calls made on the way. *)
Fixpoint run (p : Props) (st : State) (evs : list Event) : State * list Call :=
  match evs with
  | [] => (st, [])
  | ev :: rest =>
      let (st1, calls1) := step p st ev in
      let (st2, calls2) := run p st1 rest in
      (st2, calls1 ++ calls2)
  end.

(** A call that is in order: a thread with a title that is not blank and
    within the limit, or a reply with a body that is not blank. *)
Definition acceptableCall (call : Call) : Prop :=
  match call with
  | OnSubmitThread t _ => trim t <> [] /\ length t <= TITLE_MAX_LENGTH
  | OnSubmitReply b => trim b <> []
  | _ => True
  end.

End Composer.
End OrbitalComposer.

(* ===================================================================== *)
(** ** OrbitalPhotoGallery and OrbitalPhotoLightbox *)
(* ===================================================================== *)

Module OrbitalPhotoGallery.

(** [array.map((x, index) => f(x, index))] *)
Fixpoint mapFrom {A B : Type} (f : A -> nat -> B) (index : nat) (l : list A)
    : list B :=
  match l with
  | [] => []
  | x :: rest => f x index :: mapFrom f (S index) rest
  end.

Definition mapIndexed {A B : Type} (f : A -> nat -> B) (l : list A) : list B :=
  mapFrom f 0 l.

(** A clickable photo of the grid: the image source, the number [n] of its
    [alt] text "Photo n", the index its click passes to [handleClick], and
    the count shown by the "+N" overlay, if it has one. *)
Record Tile := mkTile {
  tileSrc : str;
  tileAlt : nat;
  tileClick : nat;
  tileOverlay : option nat
}.

(** The tiles rendered for [photos], layout by layout. *)
Definition tiles (photos : list str) : list Tile :=
  match photos with
  | [] => []
  | [photo0] => [mkTile photo0 1 0 None]
  | [_; _] =>
      mapIndexed (fun photo index => mkTile photo (index + 1) index None) photos
  | [photo0; _; _] =>
      mkTile photo0 1 0 None
      :: mapIndexed (fun photo index => mkTile photo (index + 2) (index + 1) None)
                    (skipn 1 photos)
  | _ =>
      let visiblePhotos := firstn 4 photos in
      let remainingCount := length photos - 4 in
      mapIndexed
        (fun photo index =>
           mkTile photo (index + 1) index
                  (if (index =? 3) && (0 <? remainingCount)
                   then Some remainingCount else None))
        visiblePhotos
  end.

(** The two [useState] cells of the gallery. *)
Record State := mkState {
  lightboxOpen : bool;
  currentIndex : nat
}.

Definition initialState : State := mkState false 0.

(** [handleClick]; the optional [onPhotoClick(index)] of the parent is called
    too and leaves the state alone. *)
Definition handleClick (index : nat) (st : State) : State := mkState true index.
Definition handleCloseLightbox (st : State) : State :=
  mkState false (currentIndex st).
Definition handleNavigate (index : nat) (st : State) : State :=
  mkState (lightboxOpen st) index.

(** [handlePrevious] and [handleNext] of the lightbox, with [onNavigate]
    bound to [handleNavigate]. *)
Definition handlePrevious (st : State) : State :=
  if 0 <? currentIndex st then handleNavigate (currentIndex st - 1) st else st.

Definition handleNext (photos : list str) (st : State) : State :=
  if currentIndex st <? length photos - 1
  then handleNavigate (currentIndex st + 1) st else st.

Inductive Key := Escape | ArrowLeft | ArrowRight | OtherKey.

Definition handleKeyDown (photos : list str) (key : Key) (st : State) : State :=
  match key with
  | Escape => handleCloseLightbox st
  | ArrowLeft => handlePrevious st
  | ArrowRight => handleNext photos st
  | OtherKey => st
  end.

(** What the user can do: click the [n]-th tile of the grid, and, while the
    lightbox is mounted, press a key or click one of its controls. *)
Inductive Event :=
| ClickTile (n : nat)
| KeyDown (key : Key)
| ClickPrevious
| ClickNext
| ClickClose.

Definition step (photos : list str) (st : State) (ev : Event) : State :=
  match ev with
  | ClickTile n =>
      match nth_error (tiles photos) n with
      | Some tile => handleClick (tileClick tile) st
      | None => st
      end
  | KeyDown key => if lightboxOpen st then handleKeyDown photos key st else st
  | ClickPrevious => if lightboxOpen st then handlePrevious st else st
  | ClickNext => if lightboxOpen st then handleNext photos st else st
  | ClickClose => if lightboxOpen st then handleCloseLightbox st else st
  end.

Definition run (photos : list str) (st : State) (evs : list Event) : State :=
  fold_left (step photos) evs st.

End OrbitalPhotoGallery.

(* ===================================================================== *)
(** ** build-openmoji-sprites: the grid *)
(* ===================================================================== *)

Module Sprites.

Definition GRID_SIZE : nat := 62.
Definition MARGIN : nat := 1.

Definition cellSize (emojiSize : nat) : nat := emojiSize + MARGIN * 2.
Definition canvasSize (emojiSize : nat) : nat := cellSize emojiSize * GRID_SIZE.

(** [x] and [y] of [processEmoji]: where the resized image is put. *)
Definition spriteLeft (emojiSize sheet_x : nat) : nat :=
  sheet_x * cellSize emojiSize + MARGIN.
Definition spriteTop (emojiSize sheet_y : nat) : nat :=
  sheet_y * cellSize emojiSize + MARGIN.

End Sprites.

(* ===================================================================== *)
(** ** Markdown made of block lines *)
(* ===================================================================== *)

(** A blockquote or bullet line of markdown, by the text after its marker. *)
Inductive BlockLine :=
| QuoteLine (text : str)
| BulletLine (text : str).

Definition blockLineText (l : BlockLine) : str :=
  match l with QuoteLine t | BulletLine t => t end.

Definition blockLineAttr (l : BlockLine) : Attributes :=
  match l with
  | QuoteLine _ => blockquoteAttr
  | BulletLine _ => listAttr Bullet
  end.

Definition blockLineMarkdown (l : BlockLine) : str :=
  match l with
  | QuoteLine t => js "> " ++ t
  | BulletLine t => js "- " ++ t
  end.

(** The operations [markdownToDelta] makes for the line. *)
Definition blockLineOps (l : BlockLine) : Delta :=
  [textOp (blockLineText l); newlineOp (blockLineAttr l)].

(** The text of the line is not empty and has no line feed. *)
Definition blockLineOk (l : BlockLine) : bool :=
  nonempty (blockLineText l) && (countLF (blockLineText l) =? 0).

(** No Bold, Italic or Underline among the attributes. *)
Definition inlinePlain (a : Attributes) : bool :=
  negb (bold a) && negb (italic a) && negb (underline a).

(** The last operation of the delta, if there is one, has no inline
    attribute. *)
Definition lastInlinePlain (d : Delta) : bool :=
  inlinePlain (attributes (last d (textOp []))).

(** The line does not begin with a Bold run. *)
Definition startsPlain (l : Line) : bool :=
  match l with
  | (_, true) :: _ => false
  | _ => true
  end.

(** No Bold run is directly followed by another Bold run. *)
Fixpoint noAdjacentBold (l : Line) : bool :=
  match l with
  | [] => true
  | r :: rest => (negb (snd r) || startsPlain rest) && noAdjacentBold rest
  end.

(* ===================================================================== *)
(** * Properties *)
(* ===================================================================== *)

(** ** Strings *)

Lemma char_eqb_eq (a b : char) : char_eqb a b = true <-> a = b.
Proof. apply N.eqb_eq. Qed.

Lemma str_eqb_eq (a b : str) : str_eqb a b = true <-> a = b.
Proof.
  revert b; induction a as [|x a IH]; intros [|y b]; simpl; split;
    try congruence; try reflexivity.
  - intros H. apply andb_true_iff in H as [H1 H2].
    apply char_eqb_eq in H1. apply IH in H2. congruence.
  - intros H. injection H as -> ->. apply andb_true_iff. split.
    + now apply char_eqb_eq.
    + now apply IH.
Qed.

Lemma isNewline_eq (s : str) : isNewline s = true <-> s = [LF].
Proof. apply str_eqb_eq. Qed.

(** ** The emitter on documents without block attributes *)

Lemma nextIsFormattedNewline_inlineOnly (rest : Delta) :
  forallb inlineOnly rest = true ->
  nextIsFormattedNewline (hd_error rest) = false.
Proof.
  destruct rest as [|n rest]; simpl; [reflexivity|].
  intros H. apply andb_true_iff in H as [H _].
  unfold inlineOnly in H. unfold nextIsFormattedNewline.
  destruct (insert n); [|reflexivity].
  destruct (list_ (attributes n)); [discriminate|].
  destruct (blockquote (attributes n)); [discriminate|].
  now rewrite andb_false_r.
Qed.

Lemma emitStep_markdown (st : EmitState) (op : Op) (next : option Op) :
  nextIsFormattedNewline next = false ->
  markdown (emitStep st op next) = markdown st ++ opMarkdown op.
Proof.
  intros H. unfold emitStep, opMarkdown.
  destruct (insert op) as [text0|e]; [|now rewrite app_nil_r].
  rewrite H, andb_false_r. simpl.
  destruct (isNewline text0) eqn:E; simpl.
  - rewrite E. reflexivity.
  - destruct (isNewline (inlineFormat (attributes op) text0)); reflexivity.
Qed.

Lemma emitLoop_inlineOnly (delta : Delta) :
  forall st,
    forallb inlineOnly delta = true ->
    markdown (emitLoop delta st) = markdown st ++ flat_map opMarkdown delta.
Proof.
  induction delta as [|op rest IH]; intros st H; simpl.
  - now rewrite app_nil_r.
  - simpl in H. apply andb_true_iff in H as [_ H].
    rewrite (IH _ H), emitStep_markdown, app_assoc; [reflexivity|].
    now apply nextIsFormattedNewline_inlineOnly.
Qed.

Lemma deltaToMarkdown_inlineOnly (delta : Delta) :
  forallb inlineOnly delta = true ->
  deltaToMarkdown delta = trim (flat_map opMarkdown delta).
Proof.
  intros H. unfold deltaToMarkdown. now rewrite emitLoop_inlineOnly.
Qed.

Lemma flat_map_opMarkdown_no_embeds (delta : Delta) :
  flat_map opMarkdown (filter (fun op => negb (isEmbedOp op)) delta)
  = flat_map opMarkdown delta.
Proof.
  induction delta as [|op rest IH]; [reflexivity|].
  cbn [filter flat_map].
  destruct (isEmbedOp op) eqn:E; cbn [negb flat_map]; rewrite IH.
  - unfold isEmbedOp in E. unfold opMarkdown at 2.
    destruct (insert op); [discriminate|reflexivity].
  - reflexivity.
Qed.

Lemma filter_inlineOnly (delta : Delta) (p : Op -> bool) :
  forallb inlineOnly delta = true ->
  forallb inlineOnly (filter p delta) = true.
Proof.
  induction delta as [|op rest IH]; simpl; [reflexivity|].
  intros H. apply andb_true_iff in H as [H1 H2].
  destruct (p op); simpl; [rewrite H1|]; auto.
Qed.

Lemma Attributes_eqb_eq (a b : Attributes) : Attributes_eqb a b = true <-> a = b.
Proof.
  destruct a as [b1 i1 u1 l1 q1], b as [b2 i2 u2 l2 q2].
  unfold Attributes_eqb; simpl. split.
  - intros H. repeat (apply andb_true_iff in H as [H ?]).
    apply Bool.eqb_prop in H.
    repeat match goal with X : Bool.eqb _ _ = true |- _ =>
      apply Bool.eqb_prop in X end.
    subst. f_equal.
    destruct l1 as [[]|], l2 as [[]|]; simpl in *; congruence.
  - intros H. injection H as -> -> -> -> ->.
    rewrite !Bool.eqb_reflx. simpl.
    destruct l2 as [[]|]; reflexivity.
Qed.

Lemma unattributed_inlineOnly (delta : Delta) :
  forallb unattributed delta = true -> forallb inlineOnly delta = true.
Proof.
  induction delta as [|op rest IH]; simpl; [reflexivity|].
  intros H. apply andb_true_iff in H as [H1 H2].
  rewrite (IH H2), andb_true_r.
  apply Attributes_eqb_eq in H1. unfold inlineOnly. now rewrite H1.
Qed.

Lemma unattributed_markdown (delta : Delta) :
  forallb unattributed delta = true ->
  flat_map opMarkdown delta = textContent delta.
Proof.
  induction delta as [|op rest IH]; simpl; [reflexivity|].
  intros H. apply andb_true_iff in H as [H1 H2].
  unfold textContent in *. simpl. rewrite (IH H2). f_equal.
  apply Attributes_eqb_eq in H1. unfold opMarkdown, opText.
  destruct (insert op); [|reflexivity].
  rewrite H1. unfold inlineFormat. simpl. now destruct (isNewline s).
Qed.

Lemma deltaToMarkdown_unattributed (delta : Delta) :
  forallb unattributed delta = true ->
  deltaToMarkdown delta = trim (textContent delta).
Proof.
  intros H. rewrite deltaToMarkdown_inlineOnly by now apply unattributed_inlineOnly.
  now rewrite unattributed_markdown.
Qed.


(** ** quill-delta: push and insert *)

Lemma mergeOps_text (lastOp newOp merged : Op) :
  mergeOps lastOp newOp = Some merged ->
  opText merged = opText lastOp ++ opText newOp
  /\ attributes merged = attributes newOp
  /\ attributes lastOp = attributes newOp
  /\ isEmbedOp merged = false.
Proof.
  unfold mergeOps, opText, isEmbedOp.
  destruct (insert lastOp) as [a|], (insert newOp) as [b|]; try discriminate.
  destruct (Attributes_eqb _ _) eqn:E; [|discriminate].
  apply Attributes_eqb_eq in E.
  intros H. injection H as <-. simpl. auto.
Qed.

Lemma mergeOps_positions (lastOp newOp merged : Op) :
  mergeOps lastOp newOp = Some merged ->
  opPositions merged = opPositions lastOp ++ opPositions newOp.
Proof.
  unfold mergeOps, opPositions.
  destruct (insert lastOp) as [a|], (insert newOp) as [b|]; try discriminate.
  destruct (Attributes_eqb _ _) eqn:E; [|discriminate].
  apply Attributes_eqb_eq in E.
  intros H. injection H as <-. simpl. rewrite map_app, E. reflexivity.
Qed.

Lemma Delta_push_not_nil (ops : Delta) (newOp : Op) : Delta_push ops newOp <> [].
Proof.
  destruct ops as [|o [|o' rest]]; simpl; try discriminate.
  destruct (mergeOps o newOp); discriminate.
Qed.

Lemma Delta_push_textContent (ops : Delta) (newOp : Op) :
  textContent (Delta_push ops newOp) = textContent ops ++ opText newOp.
Proof.
  unfold textContent.
  induction ops as [|o rest IH]; [simpl; now rewrite app_nil_r|].
  destruct rest as [|o' rest].
  - simpl. destruct (mergeOps o newOp) as [m|] eqn:E; simpl.
    + apply mergeOps_text in E as [-> _]. now rewrite !app_nil_r.
    + now rewrite !app_nil_r.
  - change (Delta_push (o :: o' :: rest) newOp)
      with (o :: Delta_push (o' :: rest) newOp).
    cbn [flat_map]. rewrite IH. cbn [flat_map]. now rewrite !app_assoc.
Qed.

Lemma Delta_push_positions (ops : Delta) (newOp : Op) :
  positions (Delta_push ops newOp) = positions ops ++ opPositions newOp.
Proof.
  unfold positions.
  induction ops as [|o rest IH]; [simpl; now rewrite app_nil_r|].
  destruct rest as [|o' rest].
  - simpl. destruct (mergeOps o newOp) as [m|] eqn:E; simpl.
    + apply mergeOps_positions in E as ->. now rewrite !app_nil_r.
    + now rewrite !app_nil_r.
  - change (Delta_push (o :: o' :: rest) newOp)
      with (o :: Delta_push (o' :: rest) newOp).
    cbn [flat_map]. rewrite IH. cbn [flat_map]. now rewrite !app_assoc.
Qed.

(** A property of operations that merging keeps holds of a delta after a
    push, if it held before and holds of the pushed operation. *)
Lemma Delta_push_Forall (P : Op -> Prop) (ops : Delta) (newOp : Op) :
  (forall l m, P l -> P newOp -> mergeOps l newOp = Some m -> P m) ->
  Forall P ops -> P newOp -> Forall P (Delta_push ops newOp).
Proof.
  intros HM H HN.
  induction ops as [|o rest IH]; [simpl; auto|].
  inversion H as [|? ? Ho Hrest]; subst.
  destruct rest as [|o' rest].
  - simpl. destruct (mergeOps o newOp) as [m|] eqn:E; eauto.
  - change (Delta_push (o :: o' :: rest) newOp)
      with (o :: Delta_push (o' :: rest) newOp).
    constructor; auto.
Qed.

Lemma Delta_insert_textContent (delta : Delta) (text : str) (a : Attributes) :
  textContent (Delta_insert delta text a) = textContent delta ++ text.
Proof.
  destruct text as [|c text]; simpl; [now rewrite app_nil_r|].
  change (match delta with
          | [] => [mkOp (InsertString (c :: text)) a]
          | [lastOp] => _
          | o :: (_ :: _) as rest => _
          end) with (Delta_push delta (mkOp (InsertString (c :: text)) a)).
  apply Delta_push_textContent.
Qed.

Lemma Delta_insert_positions (delta : Delta) (text : str) (a : Attributes) :
  positions (Delta_insert delta text a)
  = positions delta ++ map (fun c => (AChar c, a)) text.
Proof.
  destruct text as [|c text]; simpl; [now rewrite app_nil_r|].
  change (match delta with
          | [] => [mkOp (InsertString (c :: text)) a]
          | [lastOp] => _
          | o :: (_ :: _) as rest => _
          end) with (Delta_push delta (mkOp (InsertString (c :: text)) a)).
  apply Delta_push_positions.
Qed.

Lemma Delta_insert_newline_not_nil (delta : Delta) (a : Attributes) :
  Delta_insert delta [LF] a <> [].
Proof. apply Delta_push_not_nil. Qed.

(** ** The bold pattern *)

Lemma startsWith_split (p s : str) :
  startsWith p s = true -> s = p ++ substring (length p) s.
Proof.
  revert s; induction p as [|x p IH]; intros s H; [reflexivity|].
  destruct s as [|y s]; [discriminate|].
  simpl in H. apply andb_true_iff in H as [H1 H2].
  apply char_eqb_eq in H1. subst y. simpl. f_equal. now apply IH.
Qed.

Lemma startsWith_app (p s : str) : startsWith p (p ++ s) = true.
Proof.
  induction p as [|x p IH]; [reflexivity|].
  simpl. rewrite IH, andb_true_r. now apply char_eqb_eq.
Qed.

Lemma lazyClose_split (l inner rest : str) :
  lazyClose l = Some (inner, rest) ->
  l = inner ++ js "**" ++ rest /\ inner <> [].
Proof.
  revert inner rest; induction l as [|c l IH]; intros inner rest H;
    [discriminate|].
  cbn [lazyClose] in H. destruct (isLineTerminator c); [discriminate|].
  destruct (startsWith (js "**") l) eqn:E.
  - injection H as <- <-. split; [|discriminate].
    apply startsWith_split in E. simpl. f_equal. exact E.
  - destruct (lazyClose l) as [[i r]|]; [|discriminate].
    injection H as <- <-. destruct (IH i r eq_refl) as [-> _].
    split; [reflexivity|discriminate].
Qed.

Lemma boldExec_split (l before inner rest : str) :
  boldExec l = Some (before, inner, rest) ->
  l = before ++ js "**" ++ inner ++ js "**" ++ rest /\ inner <> [].
Proof.
  revert before inner rest; induction l as [|c l IH]; intros before inner rest H;
    [discriminate|].
  cbn [boldExec] in H.
  destruct (boldMatchAt (c :: l)) as [[i r]|] eqn:E.
  - injection H as <- <- <-.
    unfold boldMatchAt in E.
    destruct (startsWith (js "**") (c :: l)) eqn:S; [|discriminate].
    apply startsWith_split in S. apply lazyClose_split in E as [E N].
    split; [|exact N]. change (length (js "**")) with 2 in S.
    rewrite E in S. exact S.
  - destruct (boldExec l) as [[[b i] r]|]; [|discriminate].
    injection H as <- <- <-. destruct (IH b i r eq_refl) as [-> N].
    split; [reflexivity|exact N].
Qed.

Lemma boldExec_shorter (l before inner rest : str) :
  boldExec l = Some (before, inner, rest) -> length rest < length l.
Proof.
  intros H. apply boldExec_split in H as [-> _].
  rewrite !length_app. simpl. lia.
Qed.

(** Fuel above the length of the line is never used up: the loop returns the
    same segments for any two such amounts. *)
Lemma segmentsLoop_fuel (n : nat) :
  forall m l, length l < n -> length l < m ->
              segmentsLoop n l = segmentsLoop m l.
Proof.
  induction n as [|n IH]; intros m l Hn Hm; [lia|].
  destruct m as [|m]; [lia|].
  simpl. destruct (boldExec l) as [[[b i] r]|] eqn:E; [|reflexivity].
  apply boldExec_shorter in E.
  rewrite (IH m r) by lia. reflexivity.
Qed.

(** The loop equation of the source: the segments of a line are the text
    before the first match (if any), the match in bold, and the segments of
    what follows it; without a match, the line itself (if not empty). *)
Lemma lineSegments_unfold (l : str) :
  lineSegments l =
  match boldExec l with
  | Some (before, inner, rest) =>
      (if nonempty before then [plainSegment before] else [])
        ++ boldSegment inner :: lineSegments rest
  | None => if nonempty l then [plainSegment l] else []
  end.
Proof.
  unfold lineSegments. cbn [segmentsLoop].
  destruct (boldExec l) as [[[b i] r]|] eqn:E; [|reflexivity].
  apply boldExec_shorter in E.
  rewrite (@segmentsLoop_fuel (length l) (S (length r)) r) by lia.
  reflexivity.
Qed.

(** Induction along the matches of a line. *)
Lemma lineSegments_ind (P : str -> list Segment -> Prop) :
  (forall l, boldExec l = None ->
             P l (if nonempty l then [plainSegment l] else [])) ->
  (forall l before inner rest,
      boldExec l = Some (before, inner, rest) ->
      P rest (lineSegments rest) ->
      P l ((if nonempty before then [plainSegment before] else [])
             ++ boldSegment inner :: lineSegments rest)) ->
  forall l, P l (lineSegments l).
Proof.
  intros HN HS l.
  remember (length l) as n eqn:Hn.
  revert l Hn. induction n as [n IH] using lt_wf_ind. intros l Hn.
  rewrite lineSegments_unfold.
  destruct (boldExec l) as [[[b i] r]|] eqn:E; [|now apply HN].
  apply HS; [exact E|].
  apply (IH (length r)); [|reflexivity].
  apply boldExec_shorter in E. lia.
Qed.

Lemma segments_never_italic_underline (l : str) :
  Forall (fun s => segItalic s = false /\ segUnderline s = false)
         (lineSegments l).
Proof.
  apply (@lineSegments_ind
           (fun _ segs => Forall (fun s => segItalic s = false
                                           /\ segUnderline s = false) segs)).
  - intros l0 _. destruct (nonempty l0); repeat constructor.
  - intros l0 b i r _ IH. apply Forall_app. split.
    + destruct (nonempty b); repeat constructor.
    + constructor; [split; reflexivity|exact IH].
Qed.

(** ** The parser: shape of the result *)

Lemma Delta_insert_ParsedOp (delta : Delta) (text : str) (a : Attributes) :
  italic a = false -> underline a = false ->
  Forall ParsedOp delta -> Forall ParsedOp (Delta_insert delta text a).
Proof.
  intros Hi Hu H. destruct text as [|c text]; [exact H|].
  apply Delta_push_Forall; [|exact H|].
  - intros l m Hl Hn E. apply mergeOps_text in E as (T & A & _ & Em).
    destruct Hn as (_ & Hn & ? & ?). repeat split; auto.
    + rewrite T. intros Z. apply app_eq_nil in Z as [_ Z]. auto.
    + now rewrite A.
    + now rewrite A.
  - repeat split; auto. discriminate.
Qed.

Lemma fold_segments_ParsedOp (segs : list Segment) :
  forall delta,
    Forall (fun s => segItalic s = false /\ segUnderline s = false) segs ->
    Forall ParsedOp delta ->
    Forall ParsedOp
      (fold_left (fun d s => Delta_insert d (segText s) (segmentAttrs s))
                 segs delta).
Proof.
  induction segs as [|sg segs IH]; intros delta Hs H; [exact H|].
  inversion Hs as [|? ? [Hi Hu] Hs']; subst. simpl.
  apply IH; [exact Hs'|]. now apply Delta_insert_ParsedOp.
Qed.

Lemma parseLine_ParsedOp (delta : Delta) (line : str) :
  Forall ParsedOp delta -> Forall ParsedOp (parseLine delta line).
Proof.
  intros H. unfold parseLine.
  destruct (startsWith (js "> ") line);
    [repeat apply Delta_insert_ParsedOp; auto|].
  destruct (orderedMatch line);
    [repeat apply Delta_insert_ParsedOp; auto|].
  destruct (startsWith (js "- ") line);
    [repeat apply Delta_insert_ParsedOp; auto|].
  apply Delta_insert_ParsedOp; auto.
  apply fold_segments_ParsedOp; auto using segments_never_italic_underline.
Qed.

Lemma fold_parseLine_ParsedOp (lines : list str) :
  forall delta, Forall ParsedOp delta ->
                Forall ParsedOp (fold_left parseLine lines delta).
Proof.
  induction lines as [|l lines IH]; intros delta H; [exact H|].
  simpl. apply IH. now apply parseLine_ParsedOp.
Qed.

Lemma markdownToDelta_ParsedOp (md : str) : Forall ParsedOp (markdownToDelta md).
Proof. apply fold_parseLine_ParsedOp. constructor. Qed.

(** Every line ends in one insert of a newline. *)
Lemma parseLine_ends_with_insert (delta : Delta) (line : str) :
  exists d a, parseLine delta line = Delta_insert d [LF] a.
Proof.
  unfold parseLine.
  destruct (startsWith (js "> ") line); [eauto|].
  destruct (orderedMatch line); [eauto|].
  destruct (startsWith (js "- ") line); eauto.
Qed.

Lemma split_lines_not_nil (s : str) : split_lines s <> [].
Proof.
  destruct s as [|c s]; simpl; [discriminate|].
  destruct (char_eqb c LF); [discriminate|].
  destruct (split_lines s); discriminate.
Qed.

Lemma fold_parseLine_last (lines : list str) :
  forall delta,
    lines <> [] ->
    exists d a, fold_left parseLine lines delta = Delta_insert d [LF] a.
Proof.
  induction lines as [|l lines IH]; intros delta H; [congruence|].
  simpl. destruct lines as [|l' lines].
  - apply parseLine_ends_with_insert.
  - apply IH. discriminate.
Qed.

Lemma markdownToDelta_not_nil (md : str) : markdownToDelta md <> [].
Proof.
  destruct (@fold_parseLine_last (split_lines md) [] (split_lines_not_nil md))
    as (d & a & E).
  unfold markdownToDelta. rewrite E. apply Delta_insert_newline_not_nil.
Qed.

(** ** The parser on lines without markup *)

Lemma Delta_insert_asDelta (acc text : str) :
  Delta_insert (asDelta acc) text noAttributes = asDelta (acc ++ text).
Proof.
  destruct text as [|c text]; [now rewrite app_nil_r|].
  destruct acc as [|x acc]; reflexivity.
Qed.

Lemma parseLine_plainLine (acc line : str) :
  plainLine line = true ->
  parseLine (asDelta acc) line = asDelta (acc ++ line ++ [LF]).
Proof.
  unfold plainLine, blockFree. intros H.
  repeat (apply andb_true_iff in H as [H ?]).
  unfold parseLine.
  destruct (startsWith (js "> ") line); [discriminate|].
  destruct (orderedMatch line); [discriminate|].
  destruct (startsWith (js "- ") line); [discriminate|].
  rewrite lineSegments_unfold.
  destruct (boldExec line); [discriminate|].
  destruct line as [|c line]; cbn [nonempty fold_left].
  - apply Delta_insert_asDelta.
  - change (segmentAttrs (plainSegment (c :: line))) with noAttributes.
    cbn [segText plainSegment].
    rewrite !Delta_insert_asDelta, <- app_assoc. reflexivity.
Qed.

Lemma fold_parseLine_plain (lines : list str) :
  forall acc,
    forallb plainLine lines = true ->
    fold_left parseLine lines (asDelta acc)
    = asDelta (acc ++ flat_map (fun l => l ++ [LF]) lines).
Proof.
  induction lines as [|l lines IH]; intros acc H; simpl.
  - now rewrite app_nil_r.
  - simpl in H. apply andb_true_iff in H as [Hl H].
    rewrite (parseLine_plainLine _ _ Hl), (IH _ H), <- !app_assoc.
    reflexivity.
Qed.

Lemma split_lines_flat (s : str) :
  flat_map (fun l => l ++ [LF]) (split_lines s) = s ++ [LF].
Proof.
  induction s as [|c s IH]; [reflexivity|].
  simpl. destruct (char_eqb c LF) eqn:E.
  - apply char_eqb_eq in E. subst c. simpl. now rewrite IH.
  - destruct (split_lines s) as [|l ls].
    + destruct s; discriminate.
    + simpl in *. now rewrite IH.
Qed.

(** A markdown text in which no line reads as markup comes back as one
    unattributed run: the text and a final newline. *)
Lemma markdownToDelta_plain (md : str) :
  forallb plainLine (split_lines md) = true ->
  markdownToDelta md = [textOp (md ++ [LF])].
Proof.
  intros H. unfold markdownToDelta.
  change (@nil Op) with (asDelta []).
  rewrite (fold_parseLine_plain _ [] H), split_lines_flat. simpl.
  destruct md; reflexivity.
Qed.

(** ** The parser: text of the result *)

Lemma fold_segments_textContent (segs : list Segment) :
  forall delta,
    textContent (fold_left (fun d s => Delta_insert d (segText s) (segmentAttrs s))
                           segs delta)
    = textContent delta ++ flat_map segText segs.
Proof.
  induction segs as [|sg segs IH]; intros delta; simpl.
  - now rewrite app_nil_r.
  - now rewrite IH, Delta_insert_textContent, app_assoc.
Qed.

Lemma parseLine_textContent (delta : Delta) (line : str) :
  textContent (parseLine delta line)
  = textContent delta ++ lineBody line ++ [LF].
Proof.
  unfold parseLine, lineBody.
  destruct (startsWith (js "> ") line);
    [now rewrite !Delta_insert_textContent, app_assoc|].
  destruct (orderedMatch line);
    [now rewrite !Delta_insert_textContent, app_assoc|].
  destruct (startsWith (js "- ") line);
    [now rewrite !Delta_insert_textContent, app_assoc|].
  now rewrite Delta_insert_textContent, fold_segments_textContent, app_assoc.
Qed.

Lemma fold_parseLine_textContent (lines : list str) :
  forall delta,
    textContent (fold_left parseLine lines delta)
    = textContent delta ++ flat_map (fun l => lineBody l ++ [LF]) lines.
Proof.
  induction lines as [|l lines IH]; intros delta; simpl.
  - now rewrite app_nil_r.
  - now rewrite IH, parseLine_textContent, <- !app_assoc.
Qed.

Lemma countLF_app (a b : str) : countLF (a ++ b) = countLF a + countLF b.
Proof. unfold countLF. now rewrite filter_app, length_app. Qed.

Lemma countLF_zero (s : str) : countLF s = 0 <-> ~ In LF s.
Proof.
  unfold countLF. induction s as [|c s IH]; simpl; [tauto|].
  destruct (char_eqb c LF) eqn:E; simpl.
  - apply char_eqb_eq in E. split; [discriminate|]. intros H. exfalso. auto.
  - split.
    + intros H [H1|H1]; [|now apply IH].
      subst c. now rewrite (proj2 (char_eqb_eq LF LF) eq_refl) in E.
    + intros H. apply IH. tauto.
Qed.

Lemma countLF_incl (a b : str) : incl a b -> countLF b = 0 -> countLF a = 0.
Proof. rewrite !countLF_zero. unfold incl. intros H N I. apply N, H, I. Qed.

Lemma split_lines_length (s : str) : length (split_lines s) = S (countLF s).
Proof.
  unfold countLF. induction s as [|c s IH]; [reflexivity|].
  simpl. destruct (char_eqb c LF); simpl; [now rewrite IH|].
  destruct (split_lines s); [discriminate|exact IH].
Qed.

Lemma split_lines_countLF (s : str) :
  Forall (fun l => countLF l = 0) (split_lines s).
Proof.
  induction s as [|c s IH]; [repeat constructor|].
  simpl. destruct (char_eqb c LF) eqn:E; [now constructor|].
  destruct (split_lines s) as [|l ls]; [repeat constructor|].
  - unfold countLF. simpl. now rewrite E.
  - inversion IH; subst. constructor; [|assumption].
    unfold countLF in *. simpl. now rewrite E.
Qed.

Lemma dropWhile_incl (p : char -> bool) (s : str) : incl (dropWhile p s) s.
Proof.
  induction s as [|c s IH]; simpl; [apply incl_refl|].
  destruct (p c); [now apply incl_tl|apply incl_refl].
Qed.

Lemma skipn_incl (n : nat) (s : str) : incl (skipn n s) s.
Proof.
  intros x H. rewrite <- (firstn_skipn n s). apply in_or_app. now right.
Qed.

Lemma orderedMatch_incl (line rest : str) :
  orderedMatch line = Some rest -> incl rest line.
Proof.
  unfold orderedMatch.
  destruct (takeWhile isDigit line); [discriminate|].
  destruct (dropWhile isDigit line) as [|dot afterDot] eqn:E; [discriminate|].
  destruct (char_eqb dot 46%N); [|discriminate].
  destruct (takeWhile isWhiteSpace afterDot); [discriminate|].
  destruct (forallb _ _); [|discriminate].
  intros H. injection H as <-.
  intros x Hx. apply (@dropWhile_incl isDigit line). rewrite E.
  right. now apply (@dropWhile_incl isWhiteSpace afterDot).
Qed.

Lemma lineSegments_incl (line : str) :
  incl (flat_map segText (lineSegments line)) line.
Proof.
  apply (@lineSegments_ind (fun l segs => incl (flat_map segText segs) l)).
  - intros l _. destruct l; simpl; [apply incl_refl|].
    rewrite app_nil_r. apply incl_refl.
  - intros l b i r E IH. apply boldExec_split in E as [-> _].
    rewrite flat_map_app. cbn [flat_map segText boldSegment].
    intros x Hx. apply in_app_or in Hx as [Hx|Hx].
    + apply in_or_app. left.
      destruct b; simpl in Hx; [contradiction|]. now rewrite app_nil_r in Hx.
    + apply in_or_app. right. apply in_or_app. right.
      apply in_app_or in Hx as [Hx|Hx]; apply in_or_app; [now left|].
      right. apply in_or_app. right. now apply IH.
Qed.

Lemma lineBody_incl (line : str) : incl (lineBody line) line.
Proof.
  unfold lineBody.
  destruct (startsWith (js "> ") line); [apply skipn_incl|].
  destruct (orderedMatch line) eqn:E; [now apply orderedMatch_incl|].
  destruct (startsWith (js "- ") line); [apply skipn_incl|].
  apply lineSegments_incl.
Qed.

Lemma countLF_bodies (lines : list str) :
  Forall (fun l => countLF l = 0) lines ->
  countLF (flat_map (fun l => lineBody l ++ [LF]) lines) = length lines.
Proof.
  induction 1 as [|l lines Hl H IH]; [reflexivity|].
  simpl. rewrite !countLF_app, IH.
  rewrite (countLF_incl _ _ (lineBody_incl l) Hl). reflexivity.
Qed.

(** The last operation after a push ends with the pushed text. *)
Lemma Delta_push_last (ops : Delta) (newOp : Op) :
  exists front o pre,
    Delta_push ops newOp = front ++ [o]
    /\ opText o = pre ++ opText newOp
    /\ isEmbedOp o = isEmbedOp newOp.
Proof.
  induction ops as [|x rest IH].
  - exists [], newOp, []. auto.
  - destruct rest as [|x' rest].
    + simpl. destruct (mergeOps x newOp) as [m|] eqn:E.
      * exists [], m, (opText x). pose proof E as E'.
        apply mergeOps_text in E as (T & _ & _ & Em).
        repeat split; auto. rewrite Em.
        unfold mergeOps in E'. unfold isEmbedOp.
        destruct (insert x), (insert newOp); auto; discriminate.
      * exists [x], newOp, []. auto.
    + destruct IH as (front & o & pre & E & T & B).
      exists (x :: front), o, pre.
      change (Delta_push (x :: x' :: rest) newOp)
        with (x :: Delta_push (x' :: rest) newOp).
      rewrite E. auto.
Qed.

(** ** The bold pattern on text without asterisks *)

Lemma safeChar_not_star (c : char) (l : str) :
  safeChar c = true -> startsWith (js "**") (c :: l) = false.
Proof.
  unfold safeChar. intros H. apply andb_true_iff in H as [H _].
  apply negb_true_iff in H. cbn [startsWith js map list_ascii_of_string].
  change (N_of_ascii "*") with STAR. unfold char_eqb in *.
  rewrite N.eqb_sym, H. reflexivity.
Qed.

Lemma safeChar_after_star (c : char) (l : str) :
  safeChar c = true -> startsWith (js "**") (STAR :: c :: l) = false.
Proof.
  unfold safeChar. intros H. apply andb_true_iff in H as [H _].
  apply negb_true_iff in H. cbn [startsWith js map list_ascii_of_string].
  change (N_of_ascii "*") with STAR. unfold char_eqb in *.
  rewrite (N.eqb_sym STAR c), H. now rewrite andb_false_r.
Qed.

Lemma lazyClose_safe (b rest : str) :
  b <> [] -> forallb safeChar b = true ->
  lazyClose (b ++ js "**" ++ rest) = Some (b, rest).
Proof.
  induction b as [|c b IH]; intros N H; [congruence|].
  simpl in H. apply andb_true_iff in H as [Hc Hb].
  cbn [app lazyClose].
  assert (L : isLineTerminator c = false).
  { unfold safeChar in Hc. apply andb_true_iff in Hc as [_ Hc].
    now apply negb_true_iff in Hc. }
  rewrite L. destruct b as [|c' b].
  - cbn [app]. rewrite startsWith_app. reflexivity.
  - simpl in Hb. apply andb_true_iff in Hb as [Hc' Hb].
    cbn [app]. rewrite (safeChar_not_star _ _ Hc').
    change (c' :: b ++ js "**" ++ rest) with ((c' :: b) ++ js "**" ++ rest).
    rewrite IH; [reflexivity|discriminate|].
    simpl. now rewrite Hc', Hb.
Qed.

Lemma boldExec_safe (before b rest : str) :
  forallb safeChar before = true -> safeText b = true ->
  boldExec (before ++ js "**" ++ b ++ js "**" ++ rest) = Some (before, b, rest).
Proof.
  intros Hp Hb. unfold safeText in Hb. apply andb_true_iff in Hb as [Hn Hb].
  assert (N : b <> []) by (destruct b; [discriminate|discriminate]).
  induction before as [|c before IH].
  - cbn [app]. change (js "**" ++ b ++ js "**" ++ rest)
      with (STAR :: STAR :: b ++ js "**" ++ rest).
    cbn [boldExec]. unfold boldMatchAt.
    change (startsWith (js "**") (STAR :: STAR :: b ++ js "**" ++ rest)) with true.
    cbv iota. change (substring 2 (STAR :: STAR :: b ++ js "**" ++ rest))
      with (b ++ js "**" ++ rest).
    now rewrite lazyClose_safe.
  - simpl in Hp. apply andb_true_iff in Hp as [Hc Hp].
    cbn [app boldExec]. unfold boldMatchAt.
    rewrite (safeChar_not_star _ _ Hc). now rewrite (IH Hp).
Qed.

Lemma boldExec_noStarPair (l : str) : noStarPair l = true -> boldExec l = None.
Proof.
  induction l as [|c l IH]; intros H; [reflexivity|].
  cbn [noStarPair] in H. apply andb_true_iff in H as [H1 H2].
  apply negb_true_iff in H1.
  cbn [boldExec]. unfold boldMatchAt. now rewrite H1, (IH H2).
Qed.

Lemma noStarPair_safe (l : str) : forallb safeChar l = true -> noStarPair l = true.
Proof.
  induction l as [|c l IH]; intros H; [reflexivity|].
  simpl in H. apply andb_true_iff in H as [Hc Hl].
  cbn [noStarPair]. now rewrite (safeChar_not_star _ _ Hc), (IH Hl).
Qed.

Lemma noStarPair_safe_star (t : str) :
  forallb safeChar t = true -> noStarPair (t ++ [STAR]) = true.
Proof.
  induction t as [|c t IH]; intros H; [reflexivity|].
  simpl in H. apply andb_true_iff in H as [Hc Ht].
  cbn [app noStarPair]. now rewrite (safeChar_not_star _ _ Hc), (IH Ht).
Qed.

Lemma safeChar_countLF (l : str) : forallb safeChar l = true -> countLF l = 0.
Proof.
  intros H. apply countLF_zero. intros I.
  rewrite forallb_forall in H. specialize (H _ I). discriminate.
Qed.

Lemma safeText_not_newline (t : str) : safeText t = true -> isNewline t = false.
Proof.
  unfold safeText. intros H. apply andb_true_iff in H as [_ H].
  destruct (isNewline t) eqn:E; [|reflexivity].
  apply isNewline_eq in E. subst t. discriminate.
Qed.

(** ** Trimming and line splitting *)

Lemma rev_last (c : char) (s : str) :
  s <> [] -> rev s = last s c :: rev (removelast s).
Proof.
  intros N. rewrite (app_removelast_last c N) at 1.
  now rewrite rev_app_distr.
Qed.

Lemma trim_final_newline (s : str) : trimmed s = true -> trim (s ++ [LF]) = s.
Proof.
  destruct s as [|c s]; [reflexivity|].
  unfold trimmed. intros H. apply andb_true_iff in H as [H1 H2].
  apply negb_true_iff in H1, H2.
  unfold trim, trimStart. cbn [app dropWhile]. rewrite H1.
  unfold trimEnd.
  change (c :: s ++ [LF]) with ((c :: s) ++ [LF]).
  rewrite rev_app_distr. cbn [rev app dropWhile].
  change (isWhiteSpace LF) with true. cbv iota.
  change (rev s ++ [c]) with (rev (c :: s)).
  assert (N : c :: s <> []) by discriminate.
  rewrite (rev_last c _ N). cbn [dropWhile]. rewrite H2.
  rewrite <- (rev_last c _ N). apply rev_involutive.
Qed.

Lemma split_lines_single (l : str) : countLF l = 0 -> split_lines l = [l].
Proof.
  unfold countLF. induction l as [|c l IH]; [reflexivity|].
  simpl. destruct (char_eqb c LF); [discriminate|].
  intros H. now rewrite (IH H).
Qed.

Lemma split_lines_cons (l s : str) :
  countLF l = 0 -> split_lines (l ++ LF :: s) = l :: split_lines s.
Proof.
  unfold countLF. induction l as [|c l IH]; [reflexivity|].
  simpl. destruct (char_eqb c LF); [discriminate|].
  intros H. now rewrite (IH H).
Qed.

Lemma split_lines_joinLines (ls : list str) :
  ls <> [] -> Forall (fun l => countLF l = 0) ls ->
  split_lines (joinLines ls) = ls.
Proof.
  intros N H. induction H as [|l ls Hl H IH]; [congruence|].
  destruct ls as [|l' ls].
  - now apply split_lines_single.
  - change (joinLines (l :: l' :: ls)) with (l ++ LF :: joinLines (l' :: ls)).
    rewrite (split_lines_cons _ _ Hl), IH; [reflexivity|discriminate].
Qed.

Lemma flat_map_joinLines (ls : list str) :
  ls <> [] -> flat_map (fun l => l ++ [LF]) ls = joinLines ls ++ [LF].
Proof.
  intros N. induction ls as [|l ls IH]; [congruence|].
  destruct ls as [|l' ls].
  - simpl. now rewrite app_nil_r.
  - change (joinLines (l :: l' :: ls)) with (l ++ LF :: joinLines (l' :: ls)).
    change (flat_map (fun l => l ++ [LF]) (l :: l' :: ls))
      with ((l ++ [LF]) ++ flat_map (fun l => l ++ [LF]) (l' :: ls)).
    rewrite IH by discriminate.
    now rewrite <- !app_assoc.
Qed.

(** ** One marked-up run on a line of its own *)

Lemma blockFree_head (c : char) (l : str) :
  char_eqb 62%N c = false -> char_eqb 45%N c = false -> isDigit c = false ->
  blockFree (c :: l) = true.
Proof.
  intros H1 H2 H3. unfold blockFree, orderedMatch.
  cbn [startsWith js map list_ascii_of_string takeWhile dropWhile].
  change (N_of_ascii ">") with 62%N. change (N_of_ascii "-") with 45%N.
  rewrite H1, H2, H3. reflexivity.
Qed.

Lemma trimmed_wrapped (first final : char) (middle : str) :
  isWhiteSpace first = false -> isWhiteSpace final = false ->
  trimmed (first :: middle ++ [final]) = true.
Proof.
  intros H1 H2. unfold trimmed.
  change (first :: middle ++ [final]) with ((first :: middle) ++ [final]).
  now rewrite last_last, H1, H2.
Qed.

Lemma markdownToDelta_single_plain_line (line : str) :
  trimmed line = true -> countLF line = 0 -> plainLine line = true ->
  markdownToDelta (trim (line ++ [LF])) = [textOp (line ++ [LF])].
Proof.
  intros T L P. rewrite (trim_final_newline _ T).
  apply markdownToDelta_plain.
  rewrite (split_lines_single _ L). simpl. now rewrite P.
Qed.

Lemma italic_run_round_trip (t : str) :
  safeText t = true ->
  markdownToDelta (deltaToMarkdown [fmtOp t italicAttr; newlineOp noAttributes])
  = [textOp (js "*" ++ t ++ js "*" ++ [LF])].
Proof.
  intros S. pose proof (safeText_not_newline _ S) as NL.
  unfold safeText in S. apply andb_true_iff in S as [Sn S].
  rewrite deltaToMarkdown_inlineOnly by reflexivity.
  cbn [flat_map]. unfold opMarkdown at 1. cbn [insert fmtOp attributes].
  rewrite NL. rewrite app_nil_r.
  change (opMarkdown (newlineOp noAttributes)) with [LF].
  change (inlineFormat italicAttr t) with (STAR :: t ++ [STAR]).
  replace (js "*" ++ t ++ js "*" ++ [LF]) with ((STAR :: t ++ [STAR]) ++ [LF])
    by (simpl; now rewrite <- app_assoc).
  apply markdownToDelta_single_plain_line.
  - now apply trimmed_wrapped.
  - change (STAR :: t ++ [STAR]) with ([STAR] ++ t ++ [STAR]).
    rewrite !countLF_app, (safeChar_countLF _ S). reflexivity.
  - unfold plainLine. rewrite blockFree_head by reflexivity.
    rewrite boldExec_noStarPair; [reflexivity|].
    cbn [noStarPair]. destruct t as [|c t]; [discriminate|].
    simpl in S. apply andb_true_iff in S as [Sc St].
    cbn [app]. rewrite (safeChar_after_star _ _ Sc).
    change (c :: t ++ [STAR]) with ((c :: t) ++ [STAR]).
    rewrite noStarPair_safe_star; [reflexivity|].
    simpl. now rewrite Sc, St.
Qed.

Lemma underline_run_round_trip (t : str) :
  safeText t = true ->
  markdownToDelta (deltaToMarkdown [fmtOp t underlineAttr; newlineOp noAttributes])
  = [textOp (js "<u>" ++ t ++ js "</u>" ++ [LF])].
Proof.
  intros S. pose proof (safeText_not_newline _ S) as NL.
  unfold safeText in S. apply andb_true_iff in S as [_ S].
  rewrite deltaToMarkdown_inlineOnly by reflexivity.
  cbn [flat_map]. unfold opMarkdown at 1. cbn [insert fmtOp attributes].
  rewrite NL. rewrite app_nil_r.
  change (opMarkdown (newlineOp noAttributes)) with [LF].
  change (inlineFormat underlineAttr t) with (js "<u>" ++ t ++ js "</u>").
  assert (A : forallb safeChar (js "<u>" ++ t ++ js "</u>") = true).
  { rewrite !forallb_app, S. reflexivity. }
  replace (js "<u>" ++ t ++ js "</u>" ++ [LF])
    with ((js "<u>" ++ t ++ js "</u>") ++ [LF])
    by now rewrite <- !app_assoc.
  apply markdownToDelta_single_plain_line.
  - replace (js "<u>" ++ t ++ js "</u>")
      with (60%N :: (js "u>" ++ t ++ js "</u") ++ [62%N])
      by (simpl; rewrite <- !app_assoc; reflexivity).
    now apply trimmed_wrapped.
  - now apply safeChar_countLF.
  - unfold plainLine.
    change (js "<u>" ++ t ++ js "</u>") with (60%N :: js "u>" ++ t ++ js "</u>") at 1.
    rewrite blockFree_head by reflexivity.
    now rewrite boldExec_noStarPair by now apply noStarPair_safe.
Qed.

(** ** Lines of plain and bold runs *)

Lemma docOfLines_inlineOnly (ls : list Line) :
  forallb inlineOnly (docOfLines ls) = true.
Proof.
  unfold docOfLines. induction ls as [|l ls IH]; [reflexivity|].
  cbn [flat_map]. rewrite forallb_app, IH, andb_true_r.
  unfold lineOps. rewrite forallb_app, andb_true_r.
  induction l as [|[t [|]] l IHl]; simpl; auto.
Qed.

Lemma opMarkdown_runOp (r : Run) :
  safeText (fst r) = true -> opMarkdown (runOp r) = runMarkdown r.
Proof.
  intros S. apply safeText_not_newline in S.
  destruct r as [t [|]]; unfold opMarkdown, runOp, runMarkdown;
    cbn [insert fmtOp attributes fst snd] in *; rewrite S; reflexivity.
Qed.

Lemma lineOps_markdown (l : Line) :
  forallb (fun r => safeText (fst r)) l = true ->
  flat_map opMarkdown (lineOps l) = lineMarkdown l ++ [LF].
Proof.
  unfold lineOps, lineMarkdown. intros H. rewrite flat_map_app. f_equal.
  induction l as [|r l IH]; [reflexivity|].
  simpl in H. apply andb_true_iff in H as [Hr Hl].
  cbn [map flat_map]. now rewrite (opMarkdown_runOp _ Hr), (IH Hl).
Qed.

Lemma docOfLines_markdown (ls : list Line) :
  forallb safeLine ls = true ->
  flat_map opMarkdown (docOfLines ls)
  = flat_map (fun l => l ++ [LF]) (map lineMarkdown ls).
Proof.
  unfold docOfLines. induction ls as [|l ls IH]; intros H; [reflexivity|].
  simpl in H. apply andb_true_iff in H as [Hl Hls].
  unfold safeLine in Hl. apply andb_true_iff in Hl as [Hl _].
  cbn [map flat_map]. now rewrite flat_map_app, (lineOps_markdown _ Hl), (IH Hls).
Qed.

Lemma lineMarkdown_countLF (l : Line) :
  forallb (fun r => safeText (fst r)) l = true -> countLF (lineMarkdown l) = 0.
Proof.
  unfold lineMarkdown. induction l as [|[t b] l IH]; intros H; [reflexivity|].
  simpl in H. apply andb_true_iff in H as [Hr Hl].
  unfold safeText in Hr. apply andb_true_iff in Hr as [_ Hr].
  cbn [flat_map]. rewrite countLF_app, (IH Hl).
  unfold runMarkdown. cbn [fst snd].
  destruct b; rewrite ?countLF_app, (safeChar_countLF _ Hr); reflexivity.
Qed.

Lemma fold_segments_positions (segs : list Segment) :
  forall delta,
    positions (fold_left (fun d s => Delta_insert d (segText s) (segmentAttrs s))
                         segs delta)
    = positions delta ++ flat_map segmentPositions segs.
Proof.
  induction segs as [|sg segs IH]; intros delta; simpl.
  - now rewrite app_nil_r.
  - now rewrite IH, Delta_insert_positions, app_assoc.
Qed.

(** The segments found in the markdown of a line are its runs: [before] is
    plain text already read and not yet closed by a match. *)
Lemma lineSegments_runs (l : Line) :
  forall before,
    forallb safeChar before = true ->
    forallb (fun r => safeText (fst r)) l = true ->
    flat_map segmentPositions (lineSegments (before ++ lineMarkdown l))
    = plainPositions before ++ positions (map runOp l).
Proof.
  induction l as [|[t b] l IH]; intros before Hb Hl.
  - cbn [lineMarkdown flat_map map positions]. rewrite !app_nil_r.
    rewrite lineSegments_unfold, boldExec_noStarPair
      by now apply noStarPair_safe.
    destruct before; [reflexivity|].
    cbn [nonempty flat_map]. now rewrite app_nil_r.
  - simpl in Hl. apply andb_true_iff in Hl as [Ht Hl].
    change (lineMarkdown ((t, b) :: l))
      with (runMarkdown (t, b) ++ lineMarkdown l).
    change (positions (map runOp ((t, b) :: l)))
      with (opPositions (runOp (t, b)) ++ positions (map runOp l)).
    destruct b; unfold runMarkdown; cbn [fst snd].
    + rewrite <- !app_assoc.
      rewrite lineSegments_unfold, (boldExec_safe _ _ _ Hb Ht).
      rewrite flat_map_app. cbn [flat_map].
      rewrite <- (app_nil_l (lineMarkdown l)), (IH [] eq_refl Hl).
      f_equal. destruct before; [reflexivity|].
      cbn [nonempty flat_map]. now rewrite app_nil_r.
    + rewrite app_assoc, IH; [|rewrite forallb_app, Hb|exact Hl].
      * unfold plainPositions. now rewrite map_app, <- app_assoc.
      * unfold safeText in Ht. apply andb_true_iff in Ht as [_ Ht]. exact Ht.
Qed.

Lemma parseLine_safeLine (delta : Delta) (l : Line) :
  safeLine l = true ->
  positions (parseLine delta (lineMarkdown l))
  = positions delta ++ positions (lineOps l).
Proof.
  unfold safeLine, blockFree. intros H.
  repeat (apply andb_true_iff in H as [H ?]).
  unfold parseLine.
  destruct (startsWith (js "> ") (lineMarkdown l)); [discriminate|].
  destruct (orderedMatch (lineMarkdown l)); [discriminate|].
  destruct (startsWith (js "- ") (lineMarkdown l)); [discriminate|].
  rewrite Delta_insert_positions, fold_segments_positions.
  rewrite <- (app_nil_l (lineMarkdown l)), (lineSegments_runs l [] eq_refl H).
  unfold lineOps, positions. rewrite flat_map_app, <- app_assoc. reflexivity.
Qed.

Lemma fold_parseLine_safe (ls : list Line) :
  forall delta,
    forallb safeLine ls = true ->
    positions (fold_left parseLine (map lineMarkdown ls) delta)
    = positions delta ++ positions (docOfLines ls).
Proof.
  induction ls as [|l ls IH]; intros delta H.
  - simpl. now rewrite app_nil_r.
  - simpl in H. apply andb_true_iff in H as [Hl Hls].
    cbn [map fold_left]. rewrite (IH _ Hls), (parseLine_safeLine _ _ Hl).
    unfold docOfLines, positions. cbn [flat_map].
    now rewrite flat_map_app, <- app_assoc.
Qed.

Lemma lines_countLF (ls : list Line) :
  forallb safeLine ls = true ->
  Forall (fun l => countLF l = 0) (map lineMarkdown ls).
Proof.
  induction ls as [|l ls IH]; intros H; [constructor|].
  simpl in H. apply andb_true_iff in H as [Hl Hls].
  unfold safeLine in Hl. apply andb_true_iff in Hl as [Hl _].
  constructor; [now apply lineMarkdown_countLF|now apply IH].
Qed.

(** ** Attributes of an element *)

Lemma getAttribute_setAttribute_same (node : Node) (name : string) (v : str) :
  getAttribute (setAttribute node name v) name = Some v.
Proof.
  induction node as [|[n old] rest IH]; simpl.
  - now rewrite String.eqb_refl.
  - destruct (String.eqb n name) eqn:E; simpl; rewrite E; [reflexivity|exact IH].
Qed.

Lemma getAttribute_setAttribute_other (node : Node) (name other : string) (v : str) :
  String.eqb other name = false ->
  getAttribute (setAttribute node other v) name = getAttribute node name.
Proof.
  intros D. induction node as [|[n old] rest IH]; simpl.
  - now rewrite D.
  - destruct (String.eqb n other) eqn:E; simpl.
    + apply String.eqb_eq in E. subst n. now rewrite D.
    + now rewrite IH.
Qed.

(* ===================================================================== *)
(** * The claims of the specification *)
(* ===================================================================== *)

(** C2, as stated, fails: an Embed between two letters leaves no trace in the
    markdown, which is just the two letters. *)
Lemma embed_dropped_from_markdown :
  deltaToMarkdown [textOp (js "a"); embedOp grin; textOp (js "b");
                   newlineOp noAttributes] = js "ab".
Proof. vm_compute. reflexivity. Qed.

(** C2 (amended): [deltaToMarkdown] skips every Embed operation.  The loop
    step of an Embed leaves the markdown, the list counter and the
    start-of-line flag as they were, whatever its value and neighbours; and
    for a document without block attributes the output is that of the
    document with its Embeds taken out. *)
Theorem embed_skipped_by_emit :
  (forall st e a next, emitStep st (mkOp (InsertEmbed e) a) next = st)
  /\ (forall delta,
        forallb inlineOnly delta = true ->
        deltaToMarkdown delta
        = deltaToMarkdown (filter (fun op => negb (isEmbedOp op)) delta)).
Proof.
  split; [reflexivity|].
  intros delta H.
  rewrite !deltaToMarkdown_inlineOnly by auto using filter_inlineOnly.
  now rewrite flat_map_opMarkdown_no_embeds.
Qed.

Lemma embed_skipped_by_emit_witness :
  deltaToMarkdown [textOp (js "a"); embedOp grin; newlineOp noAttributes]
  = deltaToMarkdown
      (filter (fun op => negb (isEmbedOp op))
              [textOp (js "a"); embedOp grin; newlineOp noAttributes]).
Proof.
  apply (proj2 embed_skipped_by_emit). reflexivity.
Defined.

(** C3: on the input "5. foo\n6. bar\n" the round trip returns
    "1. foo\n1. bar".  The counter is reset at the newline that ends the first
    item, because the operation after that newline is the text of the second
    item and not a formatted newline; the second item is numbered 1 again. *)
Theorem ordered_list_round_trip_numbers_every_item_1 :
  deltaToMarkdown (markdownToDelta (js "5. foo" ++ [LF] ++ js "6. bar" ++ [LF]))
  = js "1. foo" ++ [LF] ++ js "1. bar".
Proof. vm_compute. reflexivity. Qed.

(** C4, as stated, fails: a Bold+Italic+Underline text is emitted with the
    underline tag outermost and the bold markers innermost, not the other way
    round. *)
Lemma bold_is_innermost_marker :
  deltaToMarkdown [fmtOp (js "x") allAttrs] = js "<u>***x***</u>"
  /\ deltaToMarkdown [fmtOp (js "x") allAttrs] <> specInlineFormat allAttrs (js "x").
Proof. split; vm_compute; [reflexivity|discriminate]. Qed.

(** C4 (amended): a text operation other than a newline is wrapped in a
    fixed order, Bold innermost, then Italic, then Underline outermost; the
    markers depend on the attribute set alone.  [prefix] is the line prefix,
    if one is due. *)
Theorem inline_markers_nesting :
  forall (st : EmitState) (text : str) (a : Attributes) (next : option Op),
    isNewline text = false ->
    exists prefix,
      markdown (emitStep st (fmtOp text a) next)
      = markdown st ++ prefix
        ++ (if underline a then js "<u>" else [])
        ++ (if italic a then js "*" else [])
        ++ (if bold a then js "**" else [])
        ++ text
        ++ (if bold a then js "**" else [])
        ++ (if italic a then js "*" else [])
        ++ (if underline a then js "</u>" else []).
Proof.
  intros st text a next H.
  assert (W : inlineFormat a text
              = (if underline a then js "<u>" else [])
                ++ (if italic a then js "*" else [])
                ++ (if bold a then js "**" else [])
                ++ text
                ++ (if bold a then js "**" else [])
                ++ (if italic a then js "*" else [])
                ++ (if underline a then js "</u>" else [])).
  { unfold inlineFormat.
    destruct (bold a), (italic a), (underline a); simpl;
      repeat (rewrite <- ?app_assoc; simpl); rewrite ?app_nil_r; reflexivity. }
  rewrite <- W. clear W.
  unfold emitStep. cbn [insert fmtOp attributes]. rewrite H. cbn [negb].
  rewrite andb_true_r.
  set (st1 := if isStartOfLine st && nextIsFormattedNewline next then _ else st).
  assert (P : exists prefix, markdown st1 = markdown st ++ prefix).
  { subst st1.
    destruct (isStartOfLine st && nextIsFormattedNewline next).
    - unfold linePrefix.
      destruct (list_ _) as [[]|]; simpl; eauto.
      + destruct (blockquote _); simpl; eauto.
        exists []. now rewrite app_nil_r.
      + destruct (blockquote _); simpl; eauto.
        exists []. now rewrite app_nil_r.
    - exists []. now rewrite app_nil_r. }
  destruct P as [prefix P]. exists prefix.
  destruct (isNewline (inlineFormat a text)); cbn [markdown];
    rewrite P, <- app_assoc; reflexivity.
Qed.

Lemma inline_markers_nesting_witness :
  exists prefix,
    markdown (emitStep emitInit (fmtOp (js "x") allAttrs) None)
    = markdown emitInit ++ prefix
      ++ js "<u>" ++ js "*" ++ js "**" ++ js "x" ++ js "**" ++ js "*" ++ js "</u>".
Proof.
  apply (inline_markers_nesting emitInit (js "x") allAttrs None). reflexivity.
Defined.

(** C8, as stated, fails: a text operation with a newline inside breaks the
    invariants of section 3, the specification asks for MalformedDocument,
    and [deltaToMarkdown] returns the text as it is. *)
Lemma embedded_newline_is_emitted :
  let delta := [textOp (js "a" ++ [LF] ++ js "b")] in
  specWellFormed delta = false
  /\ specEmit delta = MalformedDocument
  /\ emitOutcome delta = Emitted (js "a" ++ [LF] ++ js "b").
Proof. vm_compute. repeat split. Qed.

(** C8 (amended): [deltaToMarkdown] checks nothing and never fails; it
    returns a string for every document, whether or not the invariants of
    section 3 hold.  For a document without attributes that string is the
    trimmed text of the document, newlines inside text operations included. *)
Theorem emit_never_rejects :
  forall delta,
    exists md,
      emitOutcome delta = Emitted md
      /\ (forallb unattributed delta = true -> md = trim (textContent delta)).
Proof.
  intros delta. exists (deltaToMarkdown delta). split; [reflexivity|].
  apply deltaToMarkdown_unattributed.
Qed.

Lemma emit_never_rejects_witness :
  exists md,
    emitOutcome [textOp (js "a" ++ [LF] ++ js "b")] = Emitted md
    /\ md = trim (textContent [textOp (js "a" ++ [LF] ++ js "b")]).
Proof.
  destruct (emit_never_rejects [textOp (js "a" ++ [LF] ++ js "b")]) as [md [E H]].
  exists md. split; [exact E|]. apply H. reflexivity.
Defined.

(** C1, as stated, fails: the Embed of the document is gone after the round
    trip; what comes back is the text alone, in one operation. *)
Lemma embed_lost_in_round_trip :
  let d := [textOp (js "hi"); embedOp grin; newlineOp noAttributes] in
  existsb isEmbedOp d = true
  /\ deltaToMarkdown d = js "hi"
  /\ existsb isEmbedOp (markdownToDelta (deltaToMarkdown d)) = false
  /\ positions (markdownToDelta (deltaToMarkdown d))
     = plainPositions (js "hi" ++ [LF]).
Proof. vm_compute. repeat split. Qed.

(** C1 (amended): for every document of unattributed text and Embed
    operations, the emitted markdown is the trimmed text of the document (the
    Embeds add nothing to it), no operation of the parsed result is an Embed,
    and, when no line of that markdown reads as block or bold markup, the
    parsed result is one unattributed text operation: the trimmed text
    followed by one newline. *)
Theorem text_and_embed_round_trip :
  forall delta,
    forallb unattributed delta = true ->
    deltaToMarkdown delta = trim (textContent delta)
    /\ Forall (fun op => isEmbedOp op = false)
              (markdownToDelta (deltaToMarkdown delta))
    /\ (forallb plainLine (split_lines (deltaToMarkdown delta)) = true ->
        markdownToDelta (deltaToMarkdown delta)
        = [textOp (trim (textContent delta) ++ [LF])]).
Proof.
  intros delta H. split; [now apply deltaToMarkdown_unattributed|]. split.
  - eapply Forall_impl; [|apply markdownToDelta_ParsedOp].
    intros op P. apply P.
  - intros L. rewrite (markdownToDelta_plain _ L).
    now rewrite deltaToMarkdown_unattributed.
Qed.

Lemma text_and_embed_round_trip_witness :
  let d := [textOp (js "hi "); embedOp grin; textOp (js " there");
            newlineOp noAttributes] in
  deltaToMarkdown d = trim (textContent d)
  /\ Forall (fun op => isEmbedOp op = false) (markdownToDelta (deltaToMarkdown d))
  /\ markdownToDelta (deltaToMarkdown d) = [textOp (trim (textContent d) ++ [LF])].
Proof.
  intros d.
  destruct (@text_and_embed_round_trip d eq_refl) as (A & B & C).
  split; [exact A|]. split; [exact B|]. apply C. reflexivity.
Defined.

(** C7: [markdownToDelta] returns a document for every input string.  The
    only loop that is not a plain iteration over the input, the one over the
    bold matches of a line, ends: any fuel above the length of the line gives
    the same segments.  The result is never empty, it holds only non-empty
    inserted strings, and when no line completes a markup (an unclosed [**],
    a list marker without its space, any other characters) the input comes
    back as plain text, character for character. *)
Theorem parse_never_fails :
  forall md,
    (forall fuel line,
        length line < fuel -> segmentsLoop fuel line = lineSegments line)
    /\ markdownToDelta md <> []
    /\ Forall ParsedOp (markdownToDelta md)
    /\ (forallb plainLine (split_lines md) = true ->
        markdownToDelta md = [textOp (md ++ [LF])]).
Proof.
  intros md. split; [|split; [|split]].
  - intros fuel line H. unfold lineSegments.
    apply segmentsLoop_fuel; lia.
  - apply markdownToDelta_not_nil.
  - apply markdownToDelta_ParsedOp.
  - apply markdownToDelta_plain.
Qed.

Lemma parse_never_fails_witness :
  let md := js "**unclosed 1.x -y" ++ [55357%N] ++ [LF] ++ js "*a <u>b" in
  segmentsLoop 40 md = lineSegments md
  /\ markdownToDelta md <> []
  /\ Forall ParsedOp (markdownToDelta md)
  /\ markdownToDelta md = [textOp (md ++ [LF])].
Proof.
  intros md.
  destruct (parse_never_fails md) as (A & B & C & D).
  split; [apply A; vm_compute; lia|].
  split; [exact B|]. split; [exact C|]. apply D. reflexivity.
Defined.

(** C10, as stated, fails: the one-line input "a" is parsed to a single
    operation holding "a\n".  The newline was joined to the text before it,
    so the result has no newline operation at all, and its last operation is
    not one. *)
Lemma parsed_line_has_no_newline_op :
  markdownToDelta (js "a") = [textOp (js "a" ++ [LF])]
  /\ length (split_lines (js "a")) = 1
  /\ length (filter isNewlineOp (markdownToDelta (js "a"))) = 0.
Proof. vm_compute. repeat split. Qed.

(** C10 (amended): for every input, each line ends in exactly one insert of
    a newline, so the text of the result holds as many newline characters as
    the input has lines, and the last operation is an inserted string that
    ends with a newline.  Parsing the empty string gives exactly one
    unattributed newline operation. *)
Theorem parse_one_newline_per_line :
  forall md,
    (forall delta line, exists d a, parseLine delta line = Delta_insert d [LF] a)
    /\ countLF (textContent (markdownToDelta md)) = length (split_lines md)
    /\ (exists front o pre,
           markdownToDelta md = front ++ [o]
           /\ insert o = InsertString (pre ++ [LF]))
    /\ markdownToDelta [] = [newlineOp noAttributes].
Proof.
  intros md. split; [exact parseLine_ends_with_insert|]. split; [|split].
  - unfold markdownToDelta. rewrite fold_parseLine_textContent. simpl.
    apply countLF_bodies, split_lines_countLF.
  - destruct (@fold_parseLine_last (split_lines md) [] (split_lines_not_nil md))
      as (d & a & E).
    unfold markdownToDelta. rewrite E.
    destruct (Delta_push_last d (mkOp (InsertString [LF]) a))
      as (front & o & pre & P & T & B).
    exists front, o, pre. split; [exact P|].
    unfold opText, isEmbedOp in *. simpl in *.
    destruct (insert o); [now rewrite T|discriminate].
  - reflexivity.
Qed.

(** C9: [EmojiBlot.value] prefers the key.  With a non-empty
    [data-emoji-key] the value is rebuilt from the registry entry of that key,
    whatever [data-emoji] holds.  Without one, a non-empty [data-emoji] is
    returned as it is; and when a blot is created from that legacy value,
    [create] derives the key again with [getEmojiVariantKeyByValue] and stores
    it in [data-emoji-key], so that the next [value] of the new element goes
    through the key. *)
Theorem blot_value_prefers_key :
  forall (imports : EmojiImports) (node : Node),
    (forall k,
        getAttribute node "data-emoji-key" = Some k -> k <> [] ->
        EmojiBlot.value node
        = (variant <- getEmojiVariantByKey k ;;
           Normal (mkEmojiBlotValue (variantValue variant)
                                    (getAttribute node "data-source"))))
    /\ (forall e,
          truthy (getAttribute node "data-emoji-key") = false ->
          getAttribute node "data-emoji" = Some e -> e <> [] ->
          EmojiBlot.value node
          = Normal (mkEmojiBlotValue e (getAttribute node "data-source"))
          /\ forall k variant,
               isEmojiVariantValue e = true ->
               getEmojiVariantKeyByValue e = Normal k -> k <> [] ->
               getEmojiVariantByKey k = Normal variant ->
               exists node',
                 EmojiBlot.create
                   (mkEmojiBlotValue e (getAttribute node "data-source"))
                 = Normal node'
                 /\ getAttribute node' "data-emoji-key" = Some k
                 /\ exists source',
                      EmojiBlot.value node'
                      = Normal (mkEmojiBlotValue (variantValue variant) source')).
Proof.
  intros imports node. split.
  - intros k Hk Hne. unfold EmojiBlot.value. rewrite Hk.
    destruct k; [congruence|reflexivity].
  - intros e Hk He Hne. split.
    + unfold EmojiBlot.value. rewrite Hk, He.
      destruct e; [congruence|reflexivity].
    + intros k variant Hv Hkey Hkne Hvar.
      unfold EmojiBlot.create. cbn [emojiValue emojiSource].
      rewrite Hv, Hkey. cbn [strictAssert bind]. rewrite Hvar. cbn [bind].
      eexists. split; [reflexivity|].
      assert (K : forall n s,
                 getAttribute
                   (setAttribute (setAttribute n "data-emoji-key" k)
                                 "data-source" s) "data-emoji-key" = Some k).
      { intros n s. rewrite getAttribute_setAttribute_other by reflexivity.
        apply getAttribute_setAttribute_same. }
      split; [apply K|].
      unfold EmojiBlot.value. rewrite K.
      destruct k; [congruence|]. cbn [truthy]. rewrite Hvar. cbn [bind].
      eexists. reflexivity.
Qed.

Lemma blot_value_prefers_key_witness :
  let glyph := variantValue SampleData.dizzy in
  let stored := [("data-emoji-key"%string, js "1F635-200D-1F4AB");
                 ("data-emoji"%string, js "stale")] in
  let legacy := [("data-emoji"%string, glyph)] in
  @EmojiBlot.value SampleData.sampleImports stored
  = Normal (mkEmojiBlotValue glyph None)
  /\ @EmojiBlot.value SampleData.sampleImports legacy
     = Normal (mkEmojiBlotValue glyph None)
  /\ exists node',
       @EmojiBlot.create SampleData.sampleImports (mkEmojiBlotValue glyph None)
       = Normal node'
       /\ getAttribute node' "data-emoji-key" = Some (js "1F635-200D-1F4AB").
Proof.
  intros glyph stored legacy. split; [|split].
  - apply (proj1 (blot_value_prefers_key SampleData.sampleImports stored)
                 (js "1F635-200D-1F4AB")); [reflexivity|discriminate].
  - apply (proj2 (blot_value_prefers_key SampleData.sampleImports legacy) glyph);
      [reflexivity|reflexivity|discriminate].
  - destruct (proj2 (blot_value_prefers_key SampleData.sampleImports legacy) glyph
                    eq_refl eq_refl ltac:(discriminate)) as [_ H].
    destruct (H (js "1F635-200D-1F4AB") SampleData.dizzy
                eq_refl eq_refl ltac:(discriminate) eq_refl)
      as (node' & C & K & _).
    exists node'. split; [exact C|exact K].
Defined.

(** C6: Italic and Underline do not survive the round trip.  No operation of
    any parse result carries Italic or Underline, so a document with such an
    operation never comes back as it was; and an Italic-only or
    Underline-only run of text (not empty, without asterisk or line
    terminator) on a line of its own comes back as unattributed text with the
    markers kept as characters. *)
Theorem italic_underline_not_restored :
  (forall md,
      Forall (fun op => italic (attributes op) = false
                        /\ underline (attributes op) = false)
             (markdownToDelta md))
  /\ (forall d,
        Exists (fun op => italic (attributes op) = true
                          \/ underline (attributes op) = true) d ->
        markdownToDelta (deltaToMarkdown d) <> d)
  /\ (forall t,
        safeText t = true ->
        markdownToDelta
          (deltaToMarkdown [fmtOp t italicAttr; newlineOp noAttributes])
        = [textOp (js "*" ++ t ++ js "*" ++ [LF])]
        /\ markdownToDelta
             (deltaToMarkdown [fmtOp t underlineAttr; newlineOp noAttributes])
           = [textOp (js "<u>" ++ t ++ js "</u>" ++ [LF])]).
Proof.
  assert (A : forall md,
             Forall (fun op => italic (attributes op) = false
                               /\ underline (attributes op) = false)
                    (markdownToDelta md)).
  { intros md. eapply Forall_impl; [|apply markdownToDelta_ParsedOp].
    intros op P. split; apply P. }
  split; [exact A|]. split.
  - intros d E R. specialize (A (deltaToMarkdown d)). rewrite R in A.
    apply Exists_exists in E as (op & I & H).
    rewrite Forall_forall in A. destruct (A op I) as [Hi Hu].
    destruct H; congruence.
  - intros t S. split.
    + now apply italic_run_round_trip.
    + now apply underline_run_round_trip.
Qed.

Lemma italic_underline_not_restored_witness :
  let d := [fmtOp (js "hi") italicAttr; newlineOp noAttributes] in
  markdownToDelta (deltaToMarkdown d) <> d
  /\ markdownToDelta (deltaToMarkdown d) = [textOp (js "*hi*" ++ [LF])]
  /\ markdownToDelta
       (deltaToMarkdown [fmtOp (js "hi") underlineAttr; newlineOp noAttributes])
     = [textOp (js "<u>hi</u>" ++ [LF])].
Proof.
  intros d.
  destruct italic_underline_not_restored as (_ & B & C).
  split.
  - apply B. constructor. left. reflexivity.
  - apply (C (js "hi")). reflexivity.
Defined.

(** C5, as stated, fails: plain "1. " followed by a Bold word is emitted as
    "1. **Intro**", which is read back as an ordered-list item whose text is
    taken literally.  The word is no longer Bold and carries its asterisks as
    characters. *)
Lemma bold_lost_after_list_prefix :
  let d := [textOp (js "1. "); fmtOp (js "Intro") boldAttr;
            newlineOp noAttributes] in
  deltaToMarkdown d = js "1. **Intro**"
  /\ markdownToDelta (deltaToMarkdown d)
     = [textOp (js "**Intro**"); newlineOp (listAttr Ordered)]
  /\ positions (markdownToDelta (deltaToMarkdown d)) <> positions d.
Proof. vm_compute. repeat split. discriminate. Qed.

(** C5 (amended): take a document made of one or more lines, each a sequence
    of plain and Bold runs closed by an unattributed newline, in which every
    run is non-empty and free of asterisks and line terminators, no emitted
    line starts as a blockquote, ordered-list or bullet line, and the emitted
    text has no white space at either end.  Then the emitted markdown is the
    lines joined by newlines, and the round trip gives back the same
    document position by position: every character with the Bold attribute
    it had, every other one plain. *)
Theorem bold_round_trip :
  forall lines : list Line,
    lines <> [] ->
    forallb safeLine lines = true ->
    trimmed (joinLines (map lineMarkdown lines)) = true ->
    deltaToMarkdown (docOfLines lines) = joinLines (map lineMarkdown lines)
    /\ positions (markdownToDelta (deltaToMarkdown (docOfLines lines)))
       = positions (docOfLines lines).
Proof.
  intros lines N S T.
  assert (M : map lineMarkdown lines <> []) by (destruct lines; [congruence|discriminate]).
  assert (E : deltaToMarkdown (docOfLines lines)
              = joinLines (map lineMarkdown lines)).
  { rewrite deltaToMarkdown_inlineOnly by apply docOfLines_inlineOnly.
    rewrite (docOfLines_markdown _ S), (flat_map_joinLines _ M).
    now apply trim_final_newline. }
  split; [exact E|].
  rewrite E. unfold markdownToDelta.
  rewrite (split_lines_joinLines _ M (lines_countLF _ S)).
  now rewrite (fold_parseLine_safe _ [] S).
Qed.

Lemma bold_round_trip_witness :
  let lines := [[(js "Hello ", false); (js "bold", true); (js " world", false)];
                [(js "second", true); (js "line", true)]] in
  deltaToMarkdown (docOfLines lines)
  = js "Hello **bold** world" ++ [LF] ++ js "**second****line**"
  /\ positions (markdownToDelta (deltaToMarkdown (docOfLines lines)))
     = positions (docOfLines lines).
Proof.
  intros lines.
  apply (bold_round_trip lines); [discriminate|reflexivity|reflexivity].
Defined.

(* ===================================================================== *)
(** * Further properties of the source *)
(* ===================================================================== *)

(** ** truncateText *)

Lemma truncateText_short (text : str) (maxLength : nat) :
  length text <= maxLength -> truncateText text maxLength = text.
Proof.
  intros H. unfold truncateText. apply Nat.leb_le in H. now rewrite H.
Qed.

Lemma truncateText_long (text : str) (maxLength : nat) :
  maxLength < length text ->
  truncateText text maxLength = firstn maxLength text ++ js "...".
Proof.
  intros H. unfold truncateText. apply Nat.leb_gt in H. now rewrite H.
Qed.

Lemma firstn_length_app (a b : str) : firstn (length a) (a ++ b) = a.
Proof.
  rewrite firstn_app, Nat.sub_diag, firstn_all. simpl. apply app_nil_r.
Qed.

(** X1: [truncateText] returns a text within the limit unchanged; its result
    is never longer than the limit plus the three dots, it keeps the first
    [maxLength] characters of the text, and truncating twice is truncating
    once. *)
Theorem truncateText_bounded_idempotent :
  forall (text : str) (maxLength : nat),
    (length text <= maxLength -> truncateText text maxLength = text)
    /\ length (truncateText text maxLength) <= maxLength + 3
    /\ firstn maxLength (truncateText text maxLength) = firstn maxLength text
    /\ truncateText (truncateText text maxLength) maxLength
       = truncateText text maxLength.
Proof.
  intros text n. split; [apply truncateText_short|].
  destruct (Nat.le_gt_cases (length text) n) as [H|H].
  - rewrite (truncateText_short _ _ H).
    split; [lia|]. split; [reflexivity|]. now apply truncateText_short.
  - rewrite (truncateText_long _ _ H).
    assert (L : length (firstn n text) = n) by (rewrite length_firstn; lia).
    assert (F : firstn n (firstn n text ++ js "...") = firstn n text).
    { rewrite <- L at 1. apply firstn_length_app. }
    split; [rewrite length_app, L; simpl; lia|]. split; [exact F|].
    rewrite truncateText_long by (rewrite length_app, L; simpl; lia).
    now rewrite F.
Qed.

Lemma truncateText_bounded_idempotent_witness :
  truncateText (js "short") 100 = js "short".
Proof.
  apply (proj1 (truncateText_bounded_idempotent (js "short") 100)).
  vm_compute. lia.
Defined.

(** ** OrbitalComposer *)

Section ComposerProperties.
Context {FunGifSelection FunStickerSelection Progress : Type}.

Lemma composer_step_title (p : OrbitalComposer.Props) (st : @OrbitalComposer.State FunGifSelection FunStickerSelection Progress)
    (ev : @OrbitalComposer.Event FunGifSelection FunStickerSelection Progress) :
  length (OrbitalComposer.title st) <= OrbitalComposer.TITLE_MAX_LENGTH ->
  length (OrbitalComposer.title (fst (OrbitalComposer.step p st ev)))
  <= OrbitalComposer.TITLE_MAX_LENGTH.
Proof.
  intros H. destruct ev; simpl; auto.
  - unfold OrbitalComposer.handleTitleChange.
    destruct (length newValue <=? OrbitalComposer.TITLE_MAX_LENGTH) eqn:E; auto.
    simpl. now apply Nat.leb_le.
  - unfold OrbitalComposer.handleSubmit.
    destruct (OrbitalComposer.mode p).
    + destruct (negb _); simpl; auto. apply Nat.le_0_l.
    + destruct (negb _); simpl; auto.
Qed.

Lemma composer_run_title (p : OrbitalComposer.Props) 
    (evs : list (@OrbitalComposer.Event FunGifSelection FunStickerSelection Progress)) :
  forall st,
    length (OrbitalComposer.title st) <= OrbitalComposer.TITLE_MAX_LENGTH ->
    length (OrbitalComposer.title (fst (OrbitalComposer.run p st evs)))
    <= OrbitalComposer.TITLE_MAX_LENGTH.
Proof.
  induction evs as [|ev rest IH]; intros st H; [exact H|].
  simpl. pose proof (composer_step_title p st ev H) as H1.
  destruct (OrbitalComposer.step p st ev) as [st1 calls1].
  specialize (IH st1 H1).
  destruct (OrbitalComposer.run p st1 rest) as [st2 calls2]. exact IH.
Qed.

End ComposerProperties.

(** X2: whatever the user does to a freshly mounted composer (typing or
    pasting a title of any length, editing the body, submitting, picking and
    removing attachments, uploads), the title it holds is never longer than
    200 characters. *)
Theorem composer_title_never_exceeds_limit :
  forall (G S P : Type) (p : OrbitalComposer.Props)
         (evs : list (@OrbitalComposer.Event G S P)),
    length (OrbitalComposer.title
              (fst (OrbitalComposer.run p OrbitalComposer.initialState evs)))
    <= 200.
Proof.
  intros G S P p evs. apply composer_run_title. simpl. apply Nat.le_0_l.
Qed.

(** X3: in thread mode, whenever the submit button is enabled, a click on it
    calls [onSubmit] once, with the title and the body exactly as they are
    held (untrimmed), and leaves the composer with an empty title, an empty
    body and no GIF or sticker; the picker and the upload cells are not
    touched. *)
Theorem composer_thread_submit_when_enabled :
  forall (G S P : Type) (p : OrbitalComposer.Props)
         (st : @OrbitalComposer.State G S P),
    OrbitalComposer.mode p = OrbitalComposer.ThreadMode ->
    OrbitalComposer.isSubmitDisabled OrbitalComposer.ThreadMode st = false ->
    OrbitalComposer.handleSubmit p st
    = (OrbitalComposer.mkState [] [] (OrbitalComposer.pickerOpen st) None None
         (OrbitalComposer.uploadProgress st) (OrbitalComposer.uploadFileName st)
         (OrbitalComposer.uploadFileSize st),
       [OrbitalComposer.OnSubmitThread (OrbitalComposer.title st)
                                       (OrbitalComposer.body st)]).
Proof.
  intros G S P p st M D. unfold OrbitalComposer.handleSubmit. rewrite M.
  unfold OrbitalComposer.isSubmitDisabled in D.
  apply orb_false_iff in D as [D _]. now rewrite D.
Qed.

Lemma composer_thread_submit_when_enabled_witness :
  let p := OrbitalComposer.mkProps OrbitalComposer.ThreadMode false false in
  let st : @OrbitalComposer.State nat nat nat :=
    OrbitalComposer.mkState (js " Hello ") (js "**hi**") false (Some 7) None
                            None [] [] in
  OrbitalComposer.handleSubmit p st
  = (OrbitalComposer.mkState [] [] false None None None [] [],
     [OrbitalComposer.OnSubmitThread (js " Hello ") (js "**hi**")]).
Proof.
  intros p st.
  apply (composer_thread_submit_when_enabled nat nat nat p st); reflexivity.
Defined.

(** X4: in reply mode a GIF, a sticker or an upload alone enables the submit
    button, but with a blank body a click on it does nothing: [onSubmit] is
    not called and the state, attachments included, stays as it was. *)
Theorem composer_reply_attachment_only_not_sent :
  forall (G S P : Type) (p : OrbitalComposer.Props)
         (st : @OrbitalComposer.State G S P),
    OrbitalComposer.mode p = OrbitalComposer.ReplyMode ->
    trim (OrbitalComposer.body st) = [] ->
    OrbitalComposer.selectedGif st <> None
    \/ OrbitalComposer.selectedSticker st <> None
    \/ OrbitalComposer.uploadFileName st <> [] ->
    OrbitalComposer.isSubmitDisabled OrbitalComposer.ReplyMode st = false
    /\ OrbitalComposer.handleSubmit p st = (st, []).
Proof.
  intros G S P p st M B A. split.
  - unfold OrbitalComposer.isSubmitDisabled, OrbitalComposer.hasContent.
    rewrite B. simpl.
    destruct A as [A|[A|A]].
    + destruct (OrbitalComposer.selectedGif st); [reflexivity|congruence].
    + destruct (OrbitalComposer.selectedSticker st);
        [now rewrite orb_true_r|congruence].
    + destruct (OrbitalComposer.uploadFileName st);
        [congruence|now rewrite !orb_true_r].
  - unfold OrbitalComposer.handleSubmit. rewrite M, B. reflexivity.
Qed.

Lemma composer_reply_attachment_only_not_sent_witness :
  let p := OrbitalComposer.mkProps OrbitalComposer.ReplyMode false false in
  let st : @OrbitalComposer.State nat nat nat :=
    OrbitalComposer.mkState [] (js "  ") false (Some 7) None None [] [] in
  OrbitalComposer.isSubmitDisabled OrbitalComposer.ReplyMode st = false
  /\ OrbitalComposer.handleSubmit p st = (st, []).
Proof.
  intros p st.
  apply (composer_reply_attachment_only_not_sent nat nat nat p st);
    [reflexivity|reflexivity|left; discriminate].
Defined.

(** ** OrbitalPhotoGallery and OrbitalPhotoLightbox *)

Lemma gallery_tiles_shape (photos : list str) (n : nat) (tile : OrbitalPhotoGallery.Tile) :
  nth_error (OrbitalPhotoGallery.tiles photos) n = Some tile ->
  n < 4
  /\ nth_error photos n = Some (OrbitalPhotoGallery.tileSrc tile)
  /\ OrbitalPhotoGallery.tileClick tile = n
  /\ OrbitalPhotoGallery.tileAlt tile = n + 1
  /\ OrbitalPhotoGallery.tileOverlay tile
     = if (n =? 3) && (4 <? length photos)
       then Some (length photos - 4) else None.
Proof.
  destruct photos as [|a [|b [|c [|d rest]]]].
  - destruct n; discriminate.
  - destruct n as [|[|n]]; simpl; intros H; try discriminate.
    injection H as <-. repeat split; auto.
  - destruct n as [|[|[|n]]]; simpl; intros H; try discriminate;
      injection H as <-; repeat split; auto.
  - destruct n as [|[|[|[|n]]]]; simpl; intros H; try discriminate;
      injection H as <-; repeat split; auto.
  - destruct n as [|[|[|[|[|n]]]]]; cbn; intros H; try discriminate;
      injection H as <-; repeat split; auto; try lia.
    cbn. rewrite Nat.sub_0_r. destruct rest; reflexivity.
Qed.

Lemma gallery_tiles_length (photos : list str) :
  length (OrbitalPhotoGallery.tiles photos) = Nat.min 4 (length photos).
Proof.
  destruct photos as [|a [|b [|c [|d rest]]]]; reflexivity.
Qed.

(** X5: in every layout, the [n]-th tile of the grid shows the [n]-th photo,
    is labelled "Photo n+1", and its click opens the lightbox on that very
    photo: the index passed to [handleClick] is the position of the image
    the tile shows. *)
Theorem gallery_tile_opens_its_photo :
  forall (photos : list str) (n : nat) (tile : OrbitalPhotoGallery.Tile),
    nth_error (OrbitalPhotoGallery.tiles photos) n = Some tile ->
    nth_error photos (OrbitalPhotoGallery.tileClick tile)
    = Some (OrbitalPhotoGallery.tileSrc tile)
    /\ OrbitalPhotoGallery.tileClick tile = n
    /\ OrbitalPhotoGallery.tileAlt tile = n + 1.
Proof.
  intros photos n tile H.
  apply gallery_tiles_shape in H as (_ & S & C & A & _).
  rewrite C. auto.
Qed.

Lemma gallery_tile_opens_its_photo_witness :
  let photos := [js "a.png"; js "b.png"; js "c.png"] in
  let tile := OrbitalPhotoGallery.mkTile (js "c.png") 3 2 None in
  nth_error photos (OrbitalPhotoGallery.tileClick tile)
  = Some (OrbitalPhotoGallery.tileSrc tile)
  /\ OrbitalPhotoGallery.tileClick tile = 2
  /\ OrbitalPhotoGallery.tileAlt tile = 2 + 1.
Proof.
  intros photos tile.
  apply (gallery_tile_opens_its_photo photos 2 tile). reflexivity.
Defined.

(** X6: the grid shows the first four photos at most, and accounts for the
    rest: the "+N" overlay appears exactly when there are more than four
    photos, on the fourth tile only, with N the number of photos not shown,
    so that tiles and N add up to the number of photos. *)
Theorem gallery_overlay_counts_hidden_photos :
  forall photos : list str,
    length (OrbitalPhotoGallery.tiles photos) = Nat.min 4 (length photos)
    /\ (forall n tile,
           nth_error (OrbitalPhotoGallery.tiles photos) n = Some tile ->
           match OrbitalPhotoGallery.tileOverlay tile with
           | Some hidden =>
               n = 3 /\ 0 < hidden
               /\ length (OrbitalPhotoGallery.tiles photos) + hidden
                  = length photos
           | None => n < 3 \/ length photos <= 4
           end).
Proof.
  intros photos. split; [apply gallery_tiles_length|].
  intros n tile H. apply gallery_tiles_shape in H as (L & _ & _ & _ & O).
  rewrite O, gallery_tiles_length.
  destruct (n =? 3) eqn:E3; destruct (4 <? length photos) eqn:E4; cbn [andb].
  - apply Nat.eqb_eq in E3. apply Nat.ltb_lt in E4. lia.
  - apply Nat.ltb_ge in E4. lia.
  - apply Nat.eqb_neq in E3. lia.
  - apply Nat.eqb_neq in E3. lia.
Qed.

Lemma gallery_overlay_counts_hidden_photos_witness :
  let photos := [js "1"; js "2"; js "3"; js "4"; js "5"; js "6"] in
  match OrbitalPhotoGallery.tileOverlay
          (OrbitalPhotoGallery.mkTile (js "4") 4 3 (Some 2)) with
  | Some hidden =>
      3 = 3 /\ 0 < hidden
      /\ length (OrbitalPhotoGallery.tiles photos) + hidden = length photos
  | None => 3 < 3 \/ length photos <= 4
  end.
Proof.
  intros photos.
  apply (proj2 (gallery_overlay_counts_hidden_photos photos) 3
               (OrbitalPhotoGallery.mkTile (js "4") 4 3 (Some 2))).
  reflexivity.
Defined.

Lemma lightbox_step_in_bounds (photos : list str)
    (st : OrbitalPhotoGallery.State) (ev : OrbitalPhotoGallery.Event) :
  (OrbitalPhotoGallery.lightboxOpen st = true ->
   OrbitalPhotoGallery.currentIndex st < length photos) ->
  OrbitalPhotoGallery.lightboxOpen (OrbitalPhotoGallery.step photos st ev) = true ->
  OrbitalPhotoGallery.currentIndex (OrbitalPhotoGallery.step photos st ev)
  < length photos.
Proof.
  intros I. destruct st as [open idx]. simpl in I.
  assert (P : forall o, OrbitalPhotoGallery.lightboxOpen
                          (OrbitalPhotoGallery.handlePrevious
                             (OrbitalPhotoGallery.mkState o idx)) = o
                        /\ OrbitalPhotoGallery.currentIndex
                             (OrbitalPhotoGallery.handlePrevious
                                (OrbitalPhotoGallery.mkState o idx)) <= idx).
  { intros o. unfold OrbitalPhotoGallery.handlePrevious. simpl.
    destruct (0 <? idx); simpl; split; auto; lia. }
  assert (N : forall o, idx < length photos ->
                        OrbitalPhotoGallery.currentIndex
                          (OrbitalPhotoGallery.handleNext photos
                             (OrbitalPhotoGallery.mkState o idx))
                        < length photos).
  { intros o H. unfold OrbitalPhotoGallery.handleNext. simpl.
    destruct (idx <? length photos - 1) eqn:E; simpl; auto.
    apply Nat.ltb_lt in E. lia. }
  destruct ev as [n|key| | |]; simpl.
  - destruct (nth_error (OrbitalPhotoGallery.tiles photos) n) as [tile|] eqn:E;
      simpl; [|exact I].
    intros _. apply gallery_tiles_shape in E as (_ & S & C & _).
    rewrite C. apply nth_error_Some. congruence.
  - destruct open; simpl; [|discriminate].
    specialize (I eq_refl).
    destruct key; simpl; try discriminate; intros _;
      [destruct (P true) as [_ Q]; lia|now apply N|exact I].
  - destruct open; simpl; [|discriminate]. specialize (I eq_refl).
    intros _. destruct (P true) as [_ Q]. lia.
  - destruct open; simpl; [|discriminate]. intros _. now apply N, I.
  - destruct open; simpl; discriminate.
Qed.

(** X7: however the user clicks tiles and navigates with keys and buttons,
    whenever the lightbox is open its index points at an existing photo; the
    counter "index+1 / length" never leaves the range from 1 to the number of
    photos. *)
Theorem lightbox_index_always_valid :
  forall (photos : list str) (evs : list OrbitalPhotoGallery.Event),
    let st := OrbitalPhotoGallery.run photos OrbitalPhotoGallery.initialState evs in
    OrbitalPhotoGallery.lightboxOpen st = true ->
    exists photo,
      nth_error photos (OrbitalPhotoGallery.currentIndex st) = Some photo
      /\ 1 <= OrbitalPhotoGallery.currentIndex st + 1 <= length photos.
Proof.
  intros photos evs.
  assert (G : forall st,
             (OrbitalPhotoGallery.lightboxOpen st = true ->
              OrbitalPhotoGallery.currentIndex st < length photos) ->
             OrbitalPhotoGallery.lightboxOpen
               (OrbitalPhotoGallery.run photos st evs) = true ->
             OrbitalPhotoGallery.currentIndex
               (OrbitalPhotoGallery.run photos st evs) < length photos).
  { unfold OrbitalPhotoGallery.run.
    induction evs as [|ev rest IH]; intros st I; [exact I|].
    simpl. apply IH. now apply lightbox_step_in_bounds. }
  intros st H. subst st.
  specialize (G OrbitalPhotoGallery.initialState
                ltac:(simpl; discriminate) H).
  destruct (nth_error photos _) as [photo|] eqn:E.
  - exists photo. split; [reflexivity|lia].
  - apply nth_error_None in E. lia.
Qed.

Lemma lightbox_index_always_valid_witness :
  exists photo,
    nth_error [js "a"; js "b"]
      (OrbitalPhotoGallery.currentIndex
         (OrbitalPhotoGallery.run [js "a"; js "b"]
            OrbitalPhotoGallery.initialState
            [OrbitalPhotoGallery.ClickTile 0;
             OrbitalPhotoGallery.KeyDown OrbitalPhotoGallery.ArrowRight;
             OrbitalPhotoGallery.KeyDown OrbitalPhotoGallery.ArrowRight]))
    = Some photo
    /\ 1 <= OrbitalPhotoGallery.currentIndex
              (OrbitalPhotoGallery.run [js "a"; js "b"]
                 OrbitalPhotoGallery.initialState
                 [OrbitalPhotoGallery.ClickTile 0;
                  OrbitalPhotoGallery.KeyDown OrbitalPhotoGallery.ArrowRight;
                  OrbitalPhotoGallery.KeyDown OrbitalPhotoGallery.ArrowRight]) + 1
       <= length [js "a"; js "b"].
Proof.
  apply (lightbox_index_always_valid [js "a"; js "b"]
           [OrbitalPhotoGallery.ClickTile 0;
            OrbitalPhotoGallery.KeyDown OrbitalPhotoGallery.ArrowRight;
            OrbitalPhotoGallery.KeyDown OrbitalPhotoGallery.ArrowRight]).
  reflexivity.
Defined.

Lemma lightbox_arrows_right (photos : list str) (j : nat) :
  forall i,
    i + j < length photos ->
    OrbitalPhotoGallery.run photos (OrbitalPhotoGallery.mkState true i)
      (repeat (OrbitalPhotoGallery.KeyDown OrbitalPhotoGallery.ArrowRight) j)
    = OrbitalPhotoGallery.mkState true (i + j).
Proof.
  unfold OrbitalPhotoGallery.run.
  induction j as [|j IH]; intros i H; simpl.
  - now rewrite Nat.add_0_r.
  - unfold OrbitalPhotoGallery.handleNext. simpl.
    assert (E : (i <? length photos - 1) = true) by (apply Nat.ltb_lt; lia).
    rewrite E. unfold OrbitalPhotoGallery.handleNavigate. simpl.
    rewrite IH by lia. f_equal. lia.
Qed.

Lemma lightbox_arrows_left (photos : list str) (j : nat) :
  forall i,
    OrbitalPhotoGallery.run photos (OrbitalPhotoGallery.mkState true (i + j))
      (repeat (OrbitalPhotoGallery.KeyDown OrbitalPhotoGallery.ArrowLeft) j)
    = OrbitalPhotoGallery.mkState true i.
Proof.
  unfold OrbitalPhotoGallery.run.
  induction j as [|j IH]; intros i; simpl.
  - now rewrite Nat.add_0_r.
  - unfold OrbitalPhotoGallery.handlePrevious. simpl.
    assert (E : (0 <? i + S j) = true) by (apply Nat.ltb_lt; lia).
    rewrite E. unfold OrbitalPhotoGallery.handleNavigate. simpl.
    replace (i + S j - 1) with (i + j) by lia. apply IH.
Qed.

(** X8: every photo can be reached, also those behind the "+N" overlay:
    after a click on the first tile, [j] presses of the right arrow show
    photo [j], for every [j] below the number of photos, and [j] presses of
    the left arrow lead back to the first photo. *)
Theorem lightbox_reaches_every_photo :
  forall (photos : list str) (j : nat),
    j < length photos ->
    OrbitalPhotoGallery.run photos OrbitalPhotoGallery.initialState
      (OrbitalPhotoGallery.ClickTile 0
       :: repeat (OrbitalPhotoGallery.KeyDown OrbitalPhotoGallery.ArrowRight) j)
    = OrbitalPhotoGallery.mkState true j
    /\ OrbitalPhotoGallery.run photos (OrbitalPhotoGallery.mkState true j)
         (repeat (OrbitalPhotoGallery.KeyDown OrbitalPhotoGallery.ArrowLeft) j)
       = OrbitalPhotoGallery.mkState true 0.
Proof.
  intros photos j H. split.
  - assert (T : exists tile,
               nth_error (OrbitalPhotoGallery.tiles photos) 0 = Some tile).
    { destruct (nth_error (OrbitalPhotoGallery.tiles photos) 0) eqn:E; eauto.
      apply nth_error_None in E. rewrite gallery_tiles_length in E. lia. }
    destruct T as [tile T].
    pose proof (gallery_tiles_shape _ _ _ T) as (_ & _ & C & _).
    change (OrbitalPhotoGallery.run photos OrbitalPhotoGallery.initialState
              (OrbitalPhotoGallery.ClickTile 0 :: ?l))
      with (OrbitalPhotoGallery.run photos
              (OrbitalPhotoGallery.step photos OrbitalPhotoGallery.initialState
                 (OrbitalPhotoGallery.ClickTile 0)) l).
    unfold OrbitalPhotoGallery.step at 1. rewrite T.
    unfold OrbitalPhotoGallery.handleClick. rewrite C.
    now apply (lightbox_arrows_right photos j 0).
  - apply (lightbox_arrows_left photos j 0).
Qed.

Lemma lightbox_reaches_every_photo_witness :
  let photos := [js "1"; js "2"; js "3"; js "4"; js "5"; js "6"] in
  OrbitalPhotoGallery.run photos OrbitalPhotoGallery.initialState
    (OrbitalPhotoGallery.ClickTile 0
     :: repeat (OrbitalPhotoGallery.KeyDown OrbitalPhotoGallery.ArrowRight) 5)
  = OrbitalPhotoGallery.mkState true 5
  /\ OrbitalPhotoGallery.run photos (OrbitalPhotoGallery.mkState true 5)
       (repeat (OrbitalPhotoGallery.KeyDown OrbitalPhotoGallery.ArrowLeft) 5)
     = OrbitalPhotoGallery.mkState true 0.
Proof.
  intros photos. apply (lightbox_reaches_every_photo photos 5).
  vm_compute. lia.
Defined.

(** ** The sprite sheet *)

(** X9: for grid positions inside the 62 by 62 grid, every sprite lies
    inside the canvas with its margin, and sprites of different columns (or
    rows) never overlap: they are at least two pixels apart. *)
Theorem sprites_fit_and_do_not_overlap :
  forall emojiSize x y x' y' : nat,
    x < Sprites.GRID_SIZE -> y < Sprites.GRID_SIZE ->
    Sprites.spriteLeft emojiSize x + emojiSize + Sprites.MARGIN
    <= Sprites.canvasSize emojiSize
    /\ Sprites.spriteTop emojiSize y + emojiSize + Sprites.MARGIN
       <= Sprites.canvasSize emojiSize
    /\ (x < x' ->
        Sprites.spriteLeft emojiSize x + emojiSize + 2
        <= Sprites.spriteLeft emojiSize x')
    /\ (y < y' ->
        Sprites.spriteTop emojiSize y + emojiSize + 2
        <= Sprites.spriteTop emojiSize y').
Proof.
  intros e x y x' y' Hx Hy.
  unfold Sprites.spriteLeft, Sprites.spriteTop, Sprites.canvasSize,
    Sprites.cellSize, Sprites.GRID_SIZE, Sprites.MARGIN in *.
  repeat split; intros; nia.
Qed.

Lemma sprites_fit_and_do_not_overlap_witness :
  Sprites.spriteLeft 32 61 + 32 + Sprites.MARGIN <= Sprites.canvasSize 32
  /\ Sprites.spriteTop 32 0 + 32 + Sprites.MARGIN <= Sprites.canvasSize 32
  /\ (61 < 62 -> Sprites.spriteLeft 32 61 + 32 + 2 <= Sprites.spriteLeft 32 62)
  /\ (0 < 1 -> Sprites.spriteTop 32 0 + 32 + 2 <= Sprites.spriteTop 32 1).
Proof.
  apply (sprites_fit_and_do_not_overlap 32 61 0 62 1);
    unfold Sprites.GRID_SIZE; lia.
Defined.

(** ** The length limit of the editor *)

Lemma applyChange_limit (n : nat) (contents : Delta) (change : Delta * Source) :
  snd change = SourceUser ->
  limitedLength contents <= S n ->
  limitedLength (applyChange (Some (S n)) contents change) <= S n.
Proof.
  intros U H. unfold applyChange, handleTextChange. rewrite U.
  destruct (S n <? length (trim (quillGetText (fst change)))) eqn:E; [exact H|].
  apply Nat.ltb_ge in E. exact E.
Qed.

(** X10: with a limit set, edits made by the user never leave the editor
    with more trimmed text than the limit: an edit that would is undone as a
    whole, the contents going back to what they were, and any other edit is
    kept as it is (nothing is ever cut to fit). *)
Theorem editor_user_edits_stay_within_limit :
  forall (n : nat) (contents : Delta) (changes : list (Delta * Source)),
    Forall (fun change => snd change = SourceUser) changes ->
    limitedLength contents <= S n ->
    limitedLength (applyChanges (Some (S n)) contents changes) <= S n
    /\ forall current change,
         applyChange (Some (S n)) current change = fst change
         \/ (S n < limitedLength (fst change)
             /\ applyChange (Some (S n)) current change = current).
Proof.
  intros n contents changes U H. split.
  - unfold applyChanges. revert contents H.
    induction U as [|change rest Hc _ IH]; intros contents H; [exact H|].
    simpl. apply IH. now apply applyChange_limit.
  - intros current change. unfold applyChange, handleTextChange, limitedLength.
    destruct (snd change); auto.
    destruct (S n <? length (trim (quillGetText (fst change)))) eqn:E; auto.
    right. apply Nat.ltb_lt in E. auto.
Qed.

Lemma editor_user_edits_stay_within_limit_witness :
  limitedLength
    (applyChanges (Some 3) [textOp [LF]]
       [([textOp (js "abc" ++ [LF])], SourceUser);
        ([textOp (js "abcd" ++ [LF])], SourceUser)]) <= 3.
Proof.
  apply (proj1 (editor_user_edits_stay_within_limit 2 [textOp [LF]]
                  [([textOp (js "abc" ++ [LF])], SourceUser);
                   ([textOp (js "abcd" ++ [LF])], SourceUser)]
                  ltac:(repeat constructor) ltac:(vm_compute; lia))).
Defined.

(** ** EmojiBlot: created nodes and failures *)

(** X11: a node that [EmojiBlot.create] returns was made from a known emoji,
    carries the key the registry gives for the glyph in [data-emoji-key] and
    the source (the empty string when there was none) in [data-source]; and
    [EmojiBlot.value] of that node is the registry's glyph for the key,
    with that source. *)
Theorem blot_create_then_value :
  forall (imports : EmojiImports) (v : EmojiBlotValue) (node : Node),
    EmojiBlot.create v = Normal node ->
    isEmojiVariantValue (emojiValue v) = true
    /\ exists k variant,
         getEmojiVariantKeyByValue (emojiValue v) = Normal k
         /\ getEmojiVariantByKey k = Normal variant
         /\ getAttribute node "data-emoji-key" = Some k
         /\ getAttribute node "data-source"
            = Some (match emojiSource v with Some s => s | None => [] end)
         /\ (k <> [] ->
             EmojiBlot.value node
             = Normal (mkEmojiBlotValue
                         (variantValue variant)
                         (Some (match emojiSource v with
                                | Some s => s
                                | None => []
                                end)))).
Proof.
  intros imports v node. unfold EmojiBlot.create.
  destruct (isEmojiVariantValue (emojiValue v)); [|discriminate].
  cbn [strictAssert bind].
  destruct (getEmojiVariantKeyByValue (emojiValue v)) as [k|] eqn:K;
    [|discriminate].
  cbn [bind].
  destruct (getEmojiVariantByKey k) as [variant|] eqn:V; [|discriminate].
  cbn [bind]. intros H. injection H as <-.
  split; [reflexivity|]. exists k, variant.
  assert (A : forall n s,
             getAttribute
               (setAttribute (setAttribute n "data-emoji-key" k) "data-source" s)
               "data-emoji-key" = Some k).
  { intros n s. rewrite getAttribute_setAttribute_other by reflexivity.
    apply getAttribute_setAttribute_same. }
  repeat split; auto.
  - apply getAttribute_setAttribute_same.
  - intros N. unfold EmojiBlot.value.
    rewrite A, getAttribute_setAttribute_same.
    destruct k; [congruence|]. cbn [truthy]. rewrite V. reflexivity.
Qed.

Lemma blot_create_then_value_witness :
  exists node,
    @EmojiBlot.create SampleData.sampleImports (mkEmojiBlotValue grin None)
    = Normal node
    /\ getAttribute node "data-emoji-key" = Some (js "1F600")
    /\ @EmojiBlot.value SampleData.sampleImports node
       = Normal (mkEmojiBlotValue grin (Some [])).
Proof.
  destruct (@EmojiBlot.create SampleData.sampleImports
              (mkEmojiBlotValue grin None)) as [node|] eqn:C;
    [|discriminate].
  exists node. split; [reflexivity|].
  destruct (blot_create_then_value SampleData.sampleImports _ _ C)
    as (_ & k & variant & K & V & A & _ & R).
  vm_compute in K. injection K as <-.
  vm_compute in V. injection V as <-.
  split; [exact A|]. apply R. discriminate.
Defined.

(** X12: [EmojiBlot.value] fails in two ways only: a non-empty
    [data-emoji-key] that the registry does not know (the registry's error
    is passed on), or both [data-emoji-key] and [data-emoji] missing or
    empty.  In particular a legacy [data-emoji] without a key is always
    returned, known to the registry or not. *)
Theorem blot_value_failures :
  forall (imports : EmojiImports) (node : Node),
    (forall message,
        EmojiBlot.value node = Throw message ->
        (exists k, getAttribute node "data-emoji-key" = Some k /\ k <> []
                   /\ getEmojiVariantByKey k = Throw message)
        \/ (truthy (getAttribute node "data-emoji-key") = false
            /\ truthy (getAttribute node "data-emoji") = false
            /\ message = "Failed to make EmojiBlot - missing both data-emoji-key and data-emoji"%string))
    /\ (truthy (getAttribute node "data-emoji-key") = false ->
        truthy (getAttribute node "data-emoji") = false ->
        exists message, EmojiBlot.value node = Throw message)
    /\ (forall e,
           truthy (getAttribute node "data-emoji-key") = false ->
           getAttribute node "data-emoji" = Some e -> e <> [] ->
           EmojiBlot.value node
           = Normal (mkEmojiBlotValue e (getAttribute node "data-source"))).
Proof.
  intros imports node. unfold EmojiBlot.value. repeat split.
  - intros message.
    destruct (getAttribute node "data-emoji-key") as [[|c k]|] eqn:K;
      cbn [truthy].
    + destruct (truthy (getAttribute node "data-emoji")) eqn:E;
        [discriminate|].
      intros H. injection H as <-. right. auto.
    + destruct (getEmojiVariantByKey (c :: k)) eqn:V; [discriminate|].
      cbn [bind]. intros H. injection H as <-. left.
      exists (c :: k). repeat split; auto. discriminate.
    + destruct (truthy (getAttribute node "data-emoji")) eqn:E;
        [discriminate|].
      intros H. injection H as <-. right. auto.
  - intros K E. rewrite K, E. eauto.
  - intros e K E N. rewrite K, E. destruct e; [congruence|reflexivity].
Qed.

Lemma blot_value_failures_witness :
  (exists message,
      @EmojiBlot.value SampleData.sampleImports
        [("data-source"%string, js "picker")] = Throw message)
  /\ @EmojiBlot.value SampleData.sampleImports
       [("data-emoji"%string, js "not an emoji")]
     = Normal (mkEmojiBlotValue (js "not an emoji") None).
Proof.
  split.
  - apply (proj1 (proj2 (blot_value_failures SampleData.sampleImports
                           [("data-source"%string, js "picker")])));
      reflexivity.
  - apply (proj2 (proj2 (blot_value_failures SampleData.sampleImports
                           [("data-emoji"%string, js "not an emoji")]))
                 (js "not an emoji")); [reflexivity|reflexivity|discriminate].
Defined.

(** ** What the emitter returns, and markdown that survives parse and emit *)

Lemma dropWhile_head (p : char -> bool) (s : str) (c : char) (r : str) :
  dropWhile p s = c :: r -> p c = false.
Proof.
  induction s as [|x s IH]; simpl; [discriminate|].
  destruct (p x) eqn:E; [exact IH|].
  intros H. injection H as <- <-. exact E.
Qed.

Lemma dropWhile_suffix (p : char -> bool) (s : str) :
  exists w, s = w ++ dropWhile p s.
Proof.
  induction s as [|x s [w IH]]; simpl; [now exists []|].
  destruct (p x).
  - exists (x :: w). simpl. now rewrite <- IH.
  - now exists [].
Qed.

Lemma trimmed_trim (s : str) : trimmed (trim s) = true.
Proof.
  unfold trim, trimEnd, trimStart.
  set (x := dropWhile isWhiteSpace s).
  destruct (dropWhile_suffix isWhiteSpace (rev x)) as [w W].
  destruct (dropWhile isWhiteSpace (rev x)) as [|c y] eqn:Y; [reflexivity|].
  pose proof (dropWhile_head _ _ _ _ Y) as Hc.
  assert (X : x = rev (c :: y) ++ rev w).
  { rewrite <- rev_app_distr, <- W. symmetry. apply rev_involutive. }
  destruct (rev (c :: y)) as [|h r] eqn:R.
  - reflexivity.
  - unfold trimmed.
    assert (Hh : isWhiteSpace h = false).
    { subst x. simpl in X. now apply dropWhile_head in X. }
    assert (L : last (h :: r) h = c).
    { rewrite <- R. simpl. apply last_last. }
    now rewrite L, Hh, Hc.
Qed.

Lemma trimEnd_app_whiteSpace (s : str) (c : char) :
  isWhiteSpace c = true -> trimEnd (s ++ [c]) = trimEnd s.
Proof.
  intros H. unfold trimEnd. rewrite rev_app_distr. simpl. now rewrite H.
Qed.

Lemma trim_app_whiteSpace (s : str) (c : char) :
  isWhiteSpace c = true -> trim (s ++ [c]) = trim s.
Proof.
  intros H. unfold trim, trimStart.
  induction s as [|x s IH]; simpl.
  - now rewrite H.
  - destruct (isWhiteSpace x); [exact IH|].
    change (x :: s ++ [c]) with ((x :: s) ++ [c]).
    now apply trimEnd_app_whiteSpace.
Qed.

(** X13: the markdown that [deltaToMarkdown] returns never begins or ends
    with white space, whatever the document: it is empty, or its first and
    its last character are not white space. *)
Theorem emitted_markdown_has_no_outer_white_space :
  forall delta : Delta,
    match deltaToMarkdown delta with
    | [] => True
    | c :: rest =>
        isWhiteSpace c = false
        /\ isWhiteSpace (last (c :: rest) c) = false
    end.
Proof.
  intros delta. unfold deltaToMarkdown.
  pose proof (trimmed_trim (markdown (emitLoop delta emitInit))) as T.
  destruct (trim _) as [|c rest]; [exact I|].
  unfold trimmed in T. apply andb_true_iff in T as [T1 T2].
  now apply negb_true_iff in T1, T2.
Qed.

(** X14: markdown in which no line is read as markup (no blockquote, list
    or bold match) survives parsing and emitting, up to the white space at
    its ends: the round trip returns the trimmed input. *)
Theorem plain_markdown_survives_parse_emit :
  forall md : str,
    forallb plainLine (split_lines md) = true ->
    deltaToMarkdown (markdownToDelta md) = trim md.
Proof.
  intros md H. rewrite (markdownToDelta_plain _ H).
  rewrite deltaToMarkdown_unattributed by reflexivity.
  unfold textContent. simpl. rewrite app_nil_r.
  now apply trim_app_whiteSpace.
Qed.

Lemma plain_markdown_survives_parse_emit_witness :
  deltaToMarkdown
    (markdownToDelta (js " two * stars" ++ [LF] ++ js "1.5 is not a list "))
  = trim (js " two * stars" ++ [LF] ++ js "1.5 is not a list ").
Proof.
  apply plain_markdown_survives_parse_emit. reflexivity.
Defined.

(** Lines of blockquotes and bullets. *)

Lemma Delta_push_cons (o : Op) (rest : Delta) (newOp : Op) :
  rest <> [] -> Delta_push (o :: rest) newOp = o :: Delta_push rest newOp.
Proof. destruct rest; [congruence|reflexivity]. Qed.

Lemma Delta_push_snoc (d : Delta) (lastOp newOp : Op) :
  mergeOps lastOp newOp = None ->
  Delta_push (d ++ [lastOp]) newOp = d ++ [lastOp; newOp].
Proof.
  intros M. induction d as [|o d IH]; simpl app.
  - simpl. now rewrite M.
  - rewrite Delta_push_cons by (destruct d; discriminate).
    now rewrite IH.
Qed.

Lemma blockLine_not_newline (l : BlockLine) :
  blockLineOk l = true ->
  blockLineText l <> [] /\ countLF (blockLineText l) = 0
  /\ isNewline (blockLineText l) = false.
Proof.
  unfold blockLineOk. intros H. apply andb_true_iff in H as [N C].
  apply Nat.eqb_eq in C. repeat split; auto.
  - destruct (blockLineText l); [discriminate|discriminate].
  - destruct (isNewline (blockLineText l)) eqn:E; [|reflexivity].
    apply isNewline_eq in E. rewrite E in C. discriminate.
Qed.

Lemma parseLine_blockLine (d : Delta) (l : BlockLine) :
  parseLine d (blockLineMarkdown l)
  = Delta_insert (Delta_insert d (blockLineText l) noAttributes)
                 [LF] (blockLineAttr l).
Proof. destruct l; reflexivity. Qed.

Lemma blockLineOps_snoc (pre : list BlockLine) (l : BlockLine) :
  flat_map blockLineOps (pre ++ [l])
  = (flat_map blockLineOps pre ++ [textOp (blockLineText l)])
      ++ [newlineOp (blockLineAttr l)].
Proof.
  rewrite flat_map_app. cbn [flat_map]. rewrite app_nil_r.
  unfold blockLineOps at 2. now rewrite <- app_assoc.
Qed.

Lemma blockLineOps_push (pre : list BlockLine) (l : BlockLine) :
  blockLineOk l = true ->
  Delta_insert
    (Delta_insert (flat_map blockLineOps pre) (blockLineText l) noAttributes)
    [LF] (blockLineAttr l)
  = flat_map blockLineOps (pre ++ [l]).
Proof.
  intros H. apply blockLine_not_newline in H as (N & _ & _).
  rewrite blockLineOps_snoc.
  assert (A : Delta_insert (flat_map blockLineOps pre) (blockLineText l)
                           noAttributes
              = flat_map blockLineOps pre ++ [textOp (blockLineText l)]).
  { destruct (blockLineText l) as [|c t] eqn:T; [congruence|].
    unfold Delta_insert.
    destruct pre as [|p pre _] using rev_ind; [reflexivity|].
    rewrite blockLineOps_snoc.
    rewrite Delta_push_snoc; [now rewrite <- !app_assoc|].
    destruct p; reflexivity. }
  rewrite A. unfold Delta_insert.
  rewrite Delta_push_snoc; [now rewrite <- !app_assoc|].
  destruct l; reflexivity.
Qed.

Lemma fold_parseLine_blockLines (ls : list BlockLine) :
  forall pre,
    forallb blockLineOk ls = true ->
    fold_left parseLine (map blockLineMarkdown ls) (flat_map blockLineOps pre)
    = flat_map blockLineOps (pre ++ ls).
Proof.
  induction ls as [|l ls IH]; intros pre H; simpl.
  - now rewrite app_nil_r.
  - simpl in H. apply andb_true_iff in H as [Hl Hls].
    rewrite parseLine_blockLine, (blockLineOps_push _ _ Hl), (IH _ Hls).
    now rewrite <- app_assoc.
Qed.

Lemma emitLoop_blockLines (ls : list BlockLine) :
  forall st,
    isStartOfLine st = true ->
    forallb blockLineOk ls = true ->
    markdown (emitLoop (flat_map blockLineOps ls) st)
    = markdown st ++ flat_map (fun l => blockLineMarkdown l ++ [LF]) ls.
Proof.
  induction ls as [|l ls IH]; intros st S H.
  - simpl. now rewrite app_nil_r.
  - simpl in H. apply andb_true_iff in H as [Hl Hls].
    apply blockLine_not_newline in Hl as (_ & _ & NL).
    change (flat_map blockLineOps (l :: ls))
      with (textOp (blockLineText l) :: newlineOp (blockLineAttr l)
            :: flat_map blockLineOps ls).
    cbn [emitLoop hd_error].
    set (st1 := emitStep st (textOp (blockLineText l))
                         (Some (newlineOp (blockLineAttr l)))).
    assert (E1 : markdown st1 = markdown st ++ blockLineMarkdown l).
    { subst st1. unfold emitStep. cbn [insert textOp attributes].
      rewrite S, NL.
      assert (F : nextIsFormattedNewline (Some (newlineOp (blockLineAttr l)))
                  = true) by (destruct l; reflexivity).
      rewrite F. cbn [andb negb].
      change (inlineFormat noAttributes (blockLineText l))
        with (blockLineText l).
      rewrite NL. cbn [markdown].
      destruct l; cbn; now rewrite <- app_assoc. }
    set (st2 := emitStep st1 (newlineOp (blockLineAttr l))
                         (hd_error (flat_map blockLineOps ls))).
    assert (E2 : markdown st2 = markdown st1 ++ [LF]
                 /\ isStartOfLine st2 = true).
    { subst st2. unfold emitStep. cbn [insert newlineOp attributes].
      change (isNewline [LF]) with true. cbn [negb].
      rewrite andb_false_r. cbn. auto. }
    destruct E2 as [E2 S2].
    rewrite (IH st2 S2 Hls), E2, E1.
    cbn [flat_map]. now rewrite <- !app_assoc.
Qed.

Lemma flat_map_map_lines (A : Type) (f : A -> str) (l : list A) :
  flat_map (fun x => f x ++ [LF]) l = flat_map (fun s => s ++ [LF]) (map f l).
Proof. induction l as [|x l IH]; simpl; [reflexivity|now rewrite IH]. Qed.

Lemma blockLines_countLF (ls : list BlockLine) :
  forallb blockLineOk ls = true ->
  Forall (fun l => countLF l = 0) (map blockLineMarkdown ls).
Proof.
  induction ls as [|l ls IH]; intros H; [constructor|].
  simpl in H. apply andb_true_iff in H as [Hl Hls].
  constructor; [|now apply IH].
  apply blockLine_not_newline in Hl as (_ & C & _).
  destruct l; cbn [blockLineText] in C; unfold blockLineMarkdown;
    rewrite countLF_app, C; reflexivity.
Qed.

(** X15: markdown made of blockquote lines and bullet lines only, each with
    some text after its marker and none ending the whole in white space,
    is parsed to one text operation and one blockquote or bullet newline per
    line, and emitting that document gives back the markdown, character for
    character. *)
Theorem block_lines_round_trip :
  forall ls : list BlockLine,
    ls <> [] ->
    forallb blockLineOk ls = true ->
    trimmed (joinLines (map blockLineMarkdown ls)) = true ->
    markdownToDelta (joinLines (map blockLineMarkdown ls))
    = flat_map blockLineOps ls
    /\ deltaToMarkdown (markdownToDelta (joinLines (map blockLineMarkdown ls)))
       = joinLines (map blockLineMarkdown ls).
Proof.
  intros ls N H T.
  assert (M : map blockLineMarkdown ls <> [])
    by (destruct ls; [congruence|discriminate]).
  assert (P : markdownToDelta (joinLines (map blockLineMarkdown ls))
              = flat_map blockLineOps ls).
  { unfold markdownToDelta.
    rewrite (split_lines_joinLines _ M (blockLines_countLF _ H)).
    apply (fold_parseLine_blockLines ls [] H). }
  split; [exact P|]. rewrite P. unfold deltaToMarkdown.
  rewrite (emitLoop_blockLines ls emitInit eq_refl H). simpl markdown.
  rewrite app_nil_l, flat_map_map_lines, (flat_map_joinLines _ M).
  now apply trim_final_newline.
Qed.

Lemma block_lines_round_trip_witness :
  let ls := [QuoteLine (js "so it is said"); BulletLine (js "1. first");
             BulletLine (js "**second**"); QuoteLine (js "- the end")] in
  markdownToDelta (joinLines (map blockLineMarkdown ls))
  = flat_map blockLineOps ls
  /\ deltaToMarkdown (markdownToDelta (joinLines (map blockLineMarkdown ls)))
     = joinLines (map blockLineMarkdown ls).
Proof.
  intros ls.
  apply (block_lines_round_trip ls); [discriminate|reflexivity|reflexivity].
Defined.

(** Markdown with bold spans. *)

Lemma inlinePlain_format (a : Attributes) (t : str) :
  inlinePlain a = true -> inlineFormat a t = t.
Proof.
  unfold inlinePlain, inlineFormat. intros H.
  repeat (apply andb_true_iff in H as [H ?]).
  destruct (bold a), (italic a), (underline a); try discriminate. reflexivity.
Qed.

Lemma inlinePlain_opMarkdown (op : Op) :
  inlinePlain (attributes op) = true -> opMarkdown op = opText op.
Proof.
  intros H. unfold opMarkdown, opText. destruct (insert op); [|reflexivity].
  rewrite (inlinePlain_format _ s H). now destruct (isNewline s).
Qed.

Lemma mergeOps_markdown (lastOp newOp merged : Op) :
  mergeOps lastOp newOp = Some merged ->
  inlinePlain (attributes newOp) = true ->
  opMarkdown merged = opMarkdown lastOp ++ opMarkdown newOp.
Proof.
  intros M P. apply mergeOps_text in M as (T & A & B & _).
  rewrite !inlinePlain_opMarkdown; auto; congruence.
Qed.

Lemma mergeOps_attributes (lastOp newOp merged : Op) :
  mergeOps lastOp newOp = Some merged -> attributes lastOp = attributes newOp.
Proof. intros M. now apply mergeOps_text in M as (_ & _ & B & _). Qed.

Lemma Delta_push_markdown (d : Delta) (newOp : Op) :
  inlinePlain (attributes newOp) = true \/ lastInlinePlain d = true ->
  flat_map opMarkdown (Delta_push d newOp)
  = flat_map opMarkdown d ++ opMarkdown newOp.
Proof.
  intros H. induction d as [|o rest IH]; [simpl; now rewrite app_nil_r|].
  destruct rest as [|o' rest].
  - simpl. destruct (mergeOps o newOp) as [m|] eqn:E; simpl.
    + rewrite !app_nil_r. apply (mergeOps_markdown _ _ _ E).
      destruct H as [H|H]; [exact H|].
      apply mergeOps_attributes in E. unfold lastInlinePlain in H.
      simpl in H. now rewrite <- E.
    + now rewrite !app_nil_r.
  - rewrite Delta_push_cons by discriminate.
    cbn [flat_map]. rewrite IH, app_assoc; [reflexivity|].
    destruct H as [H|H]; [now left|right]. exact H.
Qed.

Lemma Delta_push_lastInlinePlain (d : Delta) (newOp : Op) :
  lastInlinePlain (Delta_push d newOp) = inlinePlain (attributes newOp).
Proof.
  unfold lastInlinePlain.
  induction d as [|o rest IH]; [reflexivity|].
  destruct rest as [|o' rest].
  - simpl. destruct (mergeOps o newOp) as [m|] eqn:E; [|reflexivity].
    simpl. now apply mergeOps_text in E as (_ & -> & _).
  - rewrite Delta_push_cons by discriminate.
    destruct (Delta_push (o' :: rest) newOp) eqn:P;
      [now apply Delta_push_not_nil in P|].
    exact IH.
Qed.

Lemma Delta_insert_markdown (d : Delta) (text : str) (a : Attributes) :
  inlinePlain a = true \/ lastInlinePlain d = true ->
  flat_map opMarkdown (Delta_insert d text a)
  = flat_map opMarkdown d ++ opMarkdown (mkOp (InsertString text) a)
  \/ text = [].
Proof.
  intros H. destruct text as [|c t]; [now right|left].
  now apply Delta_push_markdown.
Qed.

Lemma fold_segments_markdown (l : Line) :
  forall before d,
    forallb safeChar before = true ->
    forallb (fun r => safeText (fst r)) l = true ->
    noAdjacentBold l = true ->
    lastInlinePlain d = true \/ before <> [] \/ startsPlain l = true ->
    flat_map opMarkdown
      (fold_left (fun d s => Delta_insert d (segText s) (segmentAttrs s))
                 (lineSegments (before ++ lineMarkdown l)) d)
    = flat_map opMarkdown d ++ before ++ lineMarkdown l.
Proof.
  induction l as [|[t b] l IH]; intros before d Hb Hl Ha Hs.
  - cbn [lineMarkdown flat_map]. rewrite !app_nil_r.
    rewrite lineSegments_unfold, boldExec_noStarPair
      by now apply noStarPair_safe.
    destruct before as [|c before]; [simpl; now rewrite app_nil_r|].
    cbn [nonempty fold_left segText plainSegment].
    change (segmentAttrs (plainSegment (c :: before))) with noAttributes.
    unfold Delta_insert.
    rewrite Delta_push_markdown by (left; reflexivity).
    now rewrite inlinePlain_opMarkdown by reflexivity.
  - simpl in Hl. apply andb_true_iff in Hl as [Ht Hl].
    cbn [noAdjacentBold snd] in Ha. apply andb_true_iff in Ha as [Hn Ha].
    change (lineMarkdown ((t, b) :: l))
      with (runMarkdown (t, b) ++ lineMarkdown l).
    pose proof (safeText_not_newline _ Ht) as NL.
    destruct b; unfold runMarkdown; cbn [fst snd].
    + cbn [negb orb] in Hn.
      rewrite <- !app_assoc.
      rewrite lineSegments_unfold, (boldExec_safe _ _ _ Hb Ht).
      rewrite fold_left_app. cbn [fold_left].
      set (d1 := fold_left _ (if nonempty before then _ else _) d).
      assert (D1 : flat_map opMarkdown d1 = flat_map opMarkdown d ++ before
                   /\ lastInlinePlain d1 = true).
      { subst d1. destruct before as [|c before].
        - simpl. rewrite app_nil_r. split; [reflexivity|].
          destruct Hs as [Hs|[Hs|Hs]]; [exact Hs|congruence|discriminate].
        - cbn [nonempty fold_left segText plainSegment].
          change (segmentAttrs (plainSegment (c :: before))) with noAttributes.
          unfold Delta_insert. split.
          + rewrite Delta_push_markdown by (left; reflexivity).
            now rewrite inlinePlain_opMarkdown by reflexivity.
          + apply Delta_push_lastInlinePlain. }
      destruct D1 as [M1 L1].
      cbn [segText boldSegment].
      change (segmentAttrs (boldSegment t)) with boldAttr.
      assert (Tn : t <> []) by (destruct t; [discriminate|discriminate]).
      rewrite <- (app_nil_l (lineMarkdown l)).
      rewrite IH; auto.
      destruct t as [|c t]; [congruence|]. unfold Delta_insert.
      rewrite Delta_push_markdown by (right; exact L1).
      rewrite M1. unfold opMarkdown. cbn [insert attributes]. rewrite NL.
      change (inlineFormat boldAttr (c :: t)) with (js "**" ++ (c :: t) ++ js "**").
      now rewrite <- !app_assoc.
    + replace (before ++ t ++ lineMarkdown l)
        with ((before ++ t) ++ lineMarkdown l) by now rewrite <- app_assoc.
      apply IH; [|exact Hl|exact Ha|].
      * rewrite forallb_app, Hb.
        unfold safeText in Ht. now apply andb_true_iff in Ht as [_ Ht].
      * right. left. intros E. apply app_eq_nil in E as [_ E]. subst t.
        discriminate.
Qed.

Lemma parseLine_markdown (d : Delta) (l : Line) :
  safeLine l = true -> noAdjacentBold l = true -> lastInlinePlain d = true ->
  flat_map opMarkdown (parseLine d (lineMarkdown l))
  = flat_map opMarkdown d ++ lineMarkdown l ++ [LF]
  /\ lastInlinePlain (parseLine d (lineMarkdown l)) = true.
Proof.
  unfold safeLine, blockFree. intros H A L.
  repeat (apply andb_true_iff in H as [H ?]).
  unfold parseLine.
  destruct (startsWith (js "> ") (lineMarkdown l)); [discriminate|].
  destruct (orderedMatch (lineMarkdown l)); [discriminate|].
  destruct (startsWith (js "- ") (lineMarkdown l)); [discriminate|].
  unfold Delta_insert at 1 3. split.
  - rewrite Delta_push_markdown by (left; reflexivity).
    rewrite <- (app_nil_l (lineMarkdown l)) at 1.
    rewrite fold_segments_markdown; auto.
    simpl. now rewrite <- app_assoc.
  - apply Delta_push_lastInlinePlain.
Qed.

Lemma fold_parseLine_markdown (ls : list Line) :
  forall d,
    forallb safeLine ls = true -> forallb noAdjacentBold ls = true ->
    lastInlinePlain d = true ->
    flat_map opMarkdown (fold_left parseLine (map lineMarkdown ls) d)
    = flat_map opMarkdown d ++ flat_map (fun l => l ++ [LF]) (map lineMarkdown ls).
Proof.
  induction ls as [|l ls IH]; intros d S A L.
  - simpl. now rewrite app_nil_r.
  - simpl in S, A. apply andb_true_iff in S as [Sl S].
    apply andb_true_iff in A as [Al A].
    destruct (parseLine_markdown d l Sl Al L) as [M L'].
    cbn [map fold_left flat_map]. rewrite (IH _ S A L'), M.
    now rewrite <- !app_assoc.
Qed.

Lemma Delta_insert_inlineOnly (d : Delta) (text : str) (a : Attributes) :
  list_ a = None -> blockquote a = false ->
  forallb inlineOnly d = true -> forallb inlineOnly (Delta_insert d text a) = true.
Proof.
  intros Hl Hq H. destruct text as [|c t]; [exact H|].
  unfold Delta_insert. apply forallb_forall. apply Forall_forall.
  apply Delta_push_Forall.
  - intros l m _ _ E. apply mergeOps_text in E as (_ & A & _).
    unfold inlineOnly. rewrite A. simpl. now rewrite Hl, Hq.
  - apply Forall_forall. now apply forallb_forall.
  - unfold inlineOnly. simpl. now rewrite Hl, Hq.
Qed.

Lemma fold_parseLine_inlineOnly (ls : list Line) :
  forall d,
    forallb safeLine ls = true ->
    forallb inlineOnly d = true ->
    forallb inlineOnly (fold_left parseLine (map lineMarkdown ls) d) = true.
Proof.
  induction ls as [|l ls IH]; intros d S H; [exact H|].
  simpl in S. apply andb_true_iff in S as [Sl S].
  cbn [map fold_left]. apply IH; [exact S|].
  unfold safeLine, blockFree in Sl.
  repeat (apply andb_true_iff in Sl as [Sl ?]).
  unfold parseLine.
  destruct (startsWith (js "> ") (lineMarkdown l)); [discriminate|].
  destruct (orderedMatch (lineMarkdown l)); [discriminate|].
  destruct (startsWith (js "- ") (lineMarkdown l)); [discriminate|].
  apply Delta_insert_inlineOnly; auto.
  generalize (lineSegments (lineMarkdown l)). intros segs. revert d H.
  induction segs as [|sg segs IHs]; intros d H; [exact H|].
  simpl. apply IHs. now apply Delta_insert_inlineOnly.
Qed.

(** X16: markdown whose lines are plain text with bold spans (every span and
    every stretch of text without asterisks or line terminators, no two spans
    touching, no line starting as a block, no white space at the ends of the
    whole) survives parsing and emitting: the round trip returns it character
    for character. *)
Theorem bold_markdown_survives_parse_emit :
  forall lines : list Line,
    lines <> [] ->
    forallb safeLine lines = true ->
    forallb noAdjacentBold lines = true ->
    trimmed (joinLines (map lineMarkdown lines)) = true ->
    deltaToMarkdown (markdownToDelta (joinLines (map lineMarkdown lines)))
    = joinLines (map lineMarkdown lines).
Proof.
  intros lines N S A T.
  assert (M : map lineMarkdown lines <> [])
    by (destruct lines; [congruence|discriminate]).
  unfold markdownToDelta.
  rewrite (split_lines_joinLines _ M (lines_countLF _ S)).
  rewrite deltaToMarkdown_inlineOnly
    by now apply fold_parseLine_inlineOnly.
  rewrite (fold_parseLine_markdown lines [] S A eq_refl).
  simpl. rewrite (flat_map_joinLines _ M).
  now apply trim_final_newline.
Qed.

Lemma bold_markdown_survives_parse_emit_witness :
  let md := js "A **bold** claim, **twice**" ++ [LF] ++ js "**and** again" in
  deltaToMarkdown (markdownToDelta md) = md.
Proof.
  intros md.
  apply (bold_markdown_survives_parse_emit
           [[(js "A ", false); (js "bold", true); (js " claim, ", false);
             (js "twice", true)];
            [(js "and", true); (js " again", false)]]);
    [discriminate|reflexivity|reflexivity|reflexivity].
Defined.

(** ** Ordered-list lines *)

Lemma takeWhile_digits (ds rest : str) :
  forallb isDigit ds = true ->
  takeWhile isDigit (ds ++ 46%N :: rest) = ds
  /\ dropWhile isDigit (ds ++ 46%N :: rest) = 46%N :: rest.
Proof.
  induction ds as [|c ds IH]; intros H; [split; reflexivity|].
  simpl in H. apply andb_true_iff in H as [Hc Hd].
  destruct (IH Hd) as [T D]. simpl. rewrite Hc, T, D. now split.
Qed.

Lemma takeWhile_all (p : char -> bool) (s rest : str) :
  forallb p s = true ->
  takeWhile p (s ++ rest) = s ++ takeWhile p rest
  /\ dropWhile p (s ++ rest) = dropWhile p rest.
Proof.
  induction s as [|c s IH]; intros H; [split; reflexivity|].
  simpl in H. apply andb_true_iff in H as [Hc Hs].
  destruct (IH Hs) as [T D]. simpl. rewrite Hc, T, D. now split.
Qed.

(** X17: an ordered-list line is parsed without its numeral and without the
    white space after the dot: whatever the digits and however much white
    space, the line gives the text after them and an ordered-list newline,
    so that "5. foo" and "0012.   foo" are parsed alike. *)
Theorem ordered_line_parse_drops_numeral :
  forall (digits space text : str) (delta : Delta),
    digits <> [] -> forallb isDigit digits = true ->
    space <> [] -> forallb isWhiteSpace space = true ->
    forallb (fun c => negb (isLineTerminator c)) text = true ->
    match text with [] => true | c :: _ => negb (isWhiteSpace c) end = true ->
    parseLine delta (digits ++ js "." ++ space ++ text)
    = Delta_insert (Delta_insert delta text noAttributes)
                   [LF] (listAttr Ordered).
Proof.
  intros digits space text delta Nd Hd Ns Hs Ht Hw.
  assert (S : startsWith (js "> ") (digits ++ js "." ++ space ++ text) = false).
  { destruct digits as [|c ds]; [congruence|].
    simpl in Hd. apply andb_true_iff in Hd as [Hc _].
    cbn [app startsWith js map list_ascii_of_string].
    change (N_of_ascii ">") with 62%N.
    destruct (char_eqb 62%N c) eqn:E; [|reflexivity].
    apply char_eqb_eq in E. subst c. discriminate. }
  assert (O : orderedMatch (digits ++ js "." ++ space ++ text) = Some text).
  { unfold orderedMatch.
    change (js "." ++ space ++ text) with (46%N :: space ++ text).
    destruct (takeWhile_digits digits (space ++ text) Hd) as [T D].
    rewrite T, D.
    destruct digits as [|c ds]; [congruence|].
    change (char_eqb 46%N 46%N) with true. cbv iota.
    destruct (takeWhile_all isWhiteSpace space text Hs) as [T' D'].
    rewrite T', D'.
    assert (W : dropWhile isWhiteSpace text = text).
    { destruct text as [|x text]; [reflexivity|].
      simpl. apply negb_true_iff in Hw. now rewrite Hw. }
    rewrite W, Ht.
    destruct space as [|w space]; [congruence|]. reflexivity. }
  unfold parseLine. now rewrite S, O.
Qed.

Lemma ordered_line_parse_drops_numeral_witness :
  parseLine [] (js "0012" ++ js "." ++ js "   " ++ js "foo")
  = parseLine [] (js "5" ++ js "." ++ js " " ++ js "foo").
Proof.
  rewrite (ordered_line_parse_drops_numeral (js "0012") (js "   ") (js "foo") []);
    [|discriminate|reflexivity|discriminate|reflexivity|reflexivity|reflexivity].
  symmetry.
  apply (ordered_line_parse_drops_numeral (js "5") (js " ") (js "foo") []);
    [discriminate|reflexivity|discriminate|reflexivity|reflexivity|reflexivity].
Defined.

(** ** What the composer submits *)

Section ComposerCalls.
Context {FunGifSelection FunStickerSelection Progress : Type}.

Lemma composer_step_calls (p : OrbitalComposer.Props)
    (st : @OrbitalComposer.State FunGifSelection FunStickerSelection Progress)
    (ev : @OrbitalComposer.Event FunGifSelection FunStickerSelection Progress) :
  length (OrbitalComposer.title st) <= OrbitalComposer.TITLE_MAX_LENGTH ->
  Forall OrbitalComposer.acceptableCall (snd (OrbitalComposer.step p st ev)).
Proof.
  intros H. destruct ev; simpl; auto.
  - unfold OrbitalComposer.handleSubmit.
    destruct (OrbitalComposer.mode p).
    + destruct (trim (OrbitalComposer.title st)) eqn:E; simpl; auto.
      constructor; [|constructor]. simpl. split; [|exact H].
      rewrite E. discriminate.
    + destruct (trim (OrbitalComposer.body st)) eqn:E; simpl; auto.
      constructor; [|constructor]. simpl. rewrite E. discriminate.
  - destruct (OrbitalComposer.hasOnSelectGif p); constructor;
      [exact I|constructor].
  - destruct (OrbitalComposer.hasOnSelectSticker p); constructor;
      [exact I|constructor].
Qed.

Lemma composer_run_calls (p : OrbitalComposer.Props)
    (evs : list (@OrbitalComposer.Event FunGifSelection FunStickerSelection Progress)) :
  forall st,
    length (OrbitalComposer.title st) <= OrbitalComposer.TITLE_MAX_LENGTH ->
    Forall OrbitalComposer.acceptableCall (snd (OrbitalComposer.run p st evs)).
Proof.
  induction evs as [|ev rest IH]; intros st H; [constructor|].
  simpl. pose proof (composer_step_calls p st ev H) as C.
  pose proof (composer_step_title p st ev H) as T.
  destruct (OrbitalComposer.step p st ev) as [st1 calls1].
  specialize (IH st1 T).
  destruct (OrbitalComposer.run p st1 rest) as [st2 calls2].
  apply Forall_app. split; assumption.
Qed.

End ComposerCalls.

(** X18: over any sequence of user actions on a freshly mounted composer,
    [onSubmit] is never called with a blank title (thread mode) or a blank
    body (reply mode), and a submitted title is never longer than 200
    characters. *)
Theorem composer_never_submits_blank :
  forall (G S P : Type) (p : OrbitalComposer.Props)
         (evs : list (@OrbitalComposer.Event G S P))
         (call : @OrbitalComposer.Call G S),
    In call (snd (OrbitalComposer.run p OrbitalComposer.initialState evs)) ->
    match call with
    | OrbitalComposer.OnSubmitThread t _ => trim t <> [] /\ length t <= 200
    | OrbitalComposer.OnSubmitReply b => trim b <> []
    | _ => True
    end.
Proof.
  intros G S P p evs call H.
  pose proof (composer_run_calls p evs OrbitalComposer.initialState
                                 (Nat.le_0_l _)) as F.
  rewrite Forall_forall in F. exact (F call H).
Qed.

Lemma composer_never_submits_blank_witness :
  trim (js "re: hi") <> [].
Proof.
  apply (composer_never_submits_blank nat nat nat
           (OrbitalComposer.mkProps OrbitalComposer.ReplyMode false false)
           [OrbitalComposer.ClickSubmit;
            OrbitalComposer.EditorChange (js "re: hi");
            OrbitalComposer.ClickSubmit]
           (OrbitalComposer.OnSubmitReply (js "re: hi"))).
  left. reflexivity.
Defined.
